(** * DebtMate: the ledger of src/app/page.tsx and the payment form

    A shallow embedding of the lending-record store of the page component
    (PersonalMoneyTracker), of its aggregation code and of the two forms
    that feed it (AddRecordForm in page.tsx, PartialPaymentForm in
    components/partial-payment-form.tsx), followed by the properties of
    the ledger.

    Modelling conventions.
    - A JS [number] holding money or a count is a [Z]: the ledger works in
      whole rupees.  A [Date] is its [getTime()] value, a [Z] of
      milliseconds; [NaN] and invalid dates are outside the model except
      where a form field can be empty.
    - A JS string is a [string] of 8-bit characters read as ASCII: the
      white space of [trim] and of the regular expression class [\s] is
      tab, line feed, vertical tab, form feed, carriage return and space,
      and [toLowerCase] maps [A-Z] to [a-z].
    - React state is passed explicitly: a handler is a function from the
      state of the component at the render it closes over to the next
      state, together with the toasts it raised.  The clock readings a
      handler takes ([Date.now()], [new Date()]) are arguments.
    - A render is pure but for the sort of a payment history, which
      [Array.prototype.sort] does in place.  The payment form sorts the
      history of the record it shows, and that record is an object of
      the state: its render is modelled as a step of its own.  The
      contact dialog sorts the histories of the pending records it
      lists; the state modelled is that of the page with the contact
      dialog closed, and what the contact dialog shows is modelled as a
      value. *)

From Stdlib Require Import ZArith List String Ascii Bool Lia.
From Stdlib Require Import Permutation Sorted DecimalString DecimalZ.
Import ListNotations.

Local Open Scope Z_scope.

(* ================================================================== *)
(** ** JavaScript primitives used by the source *)

Module JsString.

(** White space of [String.prototype.trim] and of [\s], on ASCII. *)
Definition isSpace (c : ascii) : bool :=
  let n := nat_of_ascii c in
  ((9 <=? n) && (n <=? 13))%nat || (n =? 32)%nat.

Fixpoint trimStart (s : string) : string :=
  match s with
  | EmptyString => EmptyString
  | String c s' => if isSpace c then trimStart s' else s
  end.

Fixpoint trimEnd (s : string) : string :=
  match s with
  | EmptyString => EmptyString
  | String c s' =>
      match trimEnd s' with
      | EmptyString => if isSpace c then EmptyString else String c EmptyString
      | t => String c t
      end
  end.

(** [s.trim()] *)
Definition trim (s : string) : string := trimEnd (trimStart s).

Definition lowerChar (c : ascii) : ascii :=
  let n := nat_of_ascii c in
  if ((65 <=? n) && (n <=? 90))%nat then ascii_of_nat (n + 32) else c.

(** [s.toLowerCase()] *)
Fixpoint toLowerCase (s : string) : string :=
  match s with
  | EmptyString => EmptyString
  | String c s' => String (lowerChar c) (toLowerCase s')
  end.

(** [s.replace(/\s+/g, " ")]: every maximal run of white space becomes
    one space.  [inRun] tells that the previous character belonged to a
    run that has already been replaced. *)
Fixpoint replaceRuns (inRun : bool) (s : string) : string :=
  match s with
  | EmptyString => EmptyString
  | String c s' =>
      if isSpace c
      then if inRun then replaceRuns true s'
           else String " "%char (replaceRuns true s')
      else String c (replaceRuns false s')
  end.

Definition collapseSpaces (s : string) : string := replaceRuns false s.

(** [n.toString()] for an integral number: its decimal digits. *)
Definition toString (n : Z) : string := NilZero.string_of_int (Z.to_int n).

(** Truthiness of a string: [!s] holds of the empty string only. *)
Definition truthy (s : string) : bool :=
  match s with EmptyString => false | _ => true end.

Definition allSpace (s : string) : Prop :=
  Forall (fun c => isSpace c = true) (list_ascii_of_string s).

End JsString.

Module JsArray.
Section Sort.
Context {A : Type}.
(** Comparator as JS has it: a negative result puts [a] first, a
    positive one puts [b] first. *)
Variable cmp : A -> A -> Z.

Fixpoint insert (x : A) (l : list A) : list A :=
  match l with
  | [] => [x]
  | y :: l' => if cmp x y <=? 0 then x :: l else y :: insert x l'
  end.

(** [arr.sort(cmp)]: ECMAScript requires the sort to be stable, so
    for a consistent comparator the result is the one stable
    arrangement; it is computed here by insertion from the right. *)
Definition sort (l : list A) : list A := fold_right insert [] l.
End Sort.

(** [arr.reduce(f, init)] *)
Definition reduce {A B : Type} (f : B -> A -> B) (init : B) (l : list A) : B :=
  fold_left f l init.
End JsArray.

(** [Map<string, V>]: keys are kept in insertion order; [set] on a key
    that is present replaces its value where it stands. *)
Module JsMap.
Section Map.
Context {V : Type}.
Definition t := list (string * V).

Definition empty : t := [].

Fixpoint get (m : t) (k : string) : option V :=
  match m with
  | [] => None
  | (k', v) :: m' => if String.eqb k' k then Some v else get m' k
  end.

Fixpoint set (m : t) (k : string) (v : V) : t :=
  match m with
  | [] => [(k, v)]
  | (k', v') :: m' =>
      if String.eqb k' k then (k', v) :: m' else (k', v') :: set m' k v
  end.

Definition values (m : t) : list V := map snd m.
End Map.
Arguments t : clear implicits.
End JsMap.

(* ================================================================== *)
(** ** Data model (the interfaces at the head of page.tsx) *)

Definition Date := Z.

Inductive Status : Type := pending | paid.

Definition Status_eqb (a b : Status) : bool :=
  match a, b with
  | pending, pending | paid, paid => true
  | _, _ => false
  end.

Module PaymentEntry.
Record t : Type := mk {
  id : string;
  amount : Z;
  date : Date;
  notes : option string
}.
End PaymentEntry.

Record LendingRecord : Type := mkRecord {
  id : string;
  borrowerName : string;
  amount : Z;
  reason : string;
  lentDate : Date;
  status : Status;
  notes : option string;
  paidAmount : Z;
  paymentHistory : list PaymentEntry.t;
  createdAt : Date
}.

Record BorrowerSummary : Type := mkSummary {
  name : string;
  totalOwed : Z;
  totalBorrowed : Z;
  recordCount : Z;
  lastBorrowed : Date
}.

(** [Partial<LendingRecord>] as the add form fills it.  The [amount]
    field of the form holds the empty string until a number is typed:
    [None] stands for that (and for an absent field). *)
Module Partial.
Record t : Type := mk {
  borrowerName : option string;
  amount : option Z;
  reason : option string;
  lentDate : option Date;
  notes : option string
}.
End Partial.

(** The toasts of the page and of the payment form, by title, with the
    values interpolated in their descriptions. *)
Inductive Toast : Type :=
| RecordAdded (amount : Z) (borrower : string)
| PaymentReceived (borrower : string) (amount : Z)
| RecordDeleted
| FullyPaid (borrower : string)
| PartialPaymentReceived (borrower : string) (payment remaining : Z)
| InvalidAmount
| AmountTooHigh (maxPayment : Z)
| MissingInformation.

(** [variant: "destructive"]: the toasts by which a form rejects its input. *)
Definition destructive (t : Toast) : bool :=
  match t with
  | InvalidAmount | AmountTooHigh _ | MissingInformation => true
  | _ => false
  end.

(** The two readings of the clock a handler takes. *)
Record Clock : Type := mkClock {
  Date_now : Z;   (* Date.now() *)
  new_Date : Date (* new Date() *)
}.

(* ================================================================== *)
(** ** Component state and handlers *)

(** The [useState] cells of PersonalMoneyTracker that the handlers write. *)
Record App : Type := mkApp {
  records : list LendingRecord;
  isAddRecordOpen : bool;
  isPartialPaymentOpen : bool;
  selectedRecordForPayment : option LendingRecord
}.

Definition initialApp : App := mkApp [] false false None.

Definition Handler : Type := App -> App * list Toast.

Definition andThen (h1 h2 : Handler) : Handler :=
  fun st =>
    let (st1, t1) := h1 st in
    let (st2, t2) := h2 st1 in
    (st2, t1 ++ t2).

Notation "h1 ;; h2" := (andThen h1 h2) (at level 61, right associativity).

Definition skip : Handler := fun st => (st, []).
Definition toast (t : Toast) : Handler := fun st => (st, [t]).

Definition setRecords (rs : list LendingRecord) : Handler :=
  fun st => (mkApp rs (isAddRecordOpen st) (isPartialPaymentOpen st)
                   (selectedRecordForPayment st), []).
Definition setIsAddRecordOpen (b : bool) : Handler :=
  fun st => (mkApp (records st) b (isPartialPaymentOpen st)
                   (selectedRecordForPayment st), []).
Definition setIsPartialPaymentOpen (b : bool) : Handler :=
  fun st => (mkApp (records st) (isAddRecordOpen st) b
                   (selectedRecordForPayment st), []).
Definition setSelectedRecordForPayment (r : option LendingRecord) : Handler :=
  fun st => (mkApp (records st) (isAddRecordOpen st)
                   (isPartialPaymentOpen st) r, []).

(** [x || d] on an optional string: the default replaces [undefined] and
    the empty string. *)
Definition strOr (x : option string) (d : string) : string :=
  match x with
  | Some s => if JsString.truthy s then s else d
  | None => d
  end.

Definition numOr (x : option Z) (d : Z) : Z :=
  match x with
  | Some n => if n =? 0 then d else n
  | None => d
  end.

Definition orElse {A : Type} (x : option A) (d : A) : A :=
  match x with Some a => a | None => d end.

(** page.tsx, lines 146-165. *)
Definition handleAddRecord (clk : Clock) (recordData : Partial.t) : Handler :=
  fun st =>
    let newRecord := {|
      id := JsString.toString (Date_now clk);
      borrowerName :=
        strOr (option_map JsString.trim (Partial.borrowerName recordData)) "";
      amount := numOr (Partial.amount recordData) 0;
      reason := strOr (Partial.reason recordData) "";
      lentDate := orElse (Partial.lentDate recordData) (new_Date clk);
      status := pending;
      notes := Some (strOr (Partial.notes recordData) "");
      paidAmount := 0;
      paymentHistory := [];
      createdAt := new_Date clk
    |} in
    (setRecords (newRecord :: records st) ;;
     setIsAddRecordOpen false ;;
     toast (RecordAdded (amount newRecord) (borrowerName newRecord))) st.

Definition withStatus (record : LendingRecord) (s : Status) : LendingRecord :=
  {| id := id record; borrowerName := borrowerName record;
     amount := amount record; reason := reason record;
     lentDate := lentDate record; status := s; notes := notes record;
     paidAmount := paidAmount record;
     paymentHistory := paymentHistory record;
     createdAt := createdAt record |}.

(** page.tsx, lines 167-176. *)
Definition markAsPaid (recordId : string) : Handler :=
  fun st =>
    let records := records st in
    (setRecords
       (map (fun record =>
               if String.eqb (id record) recordId
               then withStatus record paid else record) records) ;;
     match find (fun r => String.eqb (id r) recordId) records with
     | Some record => toast (PaymentReceived (borrowerName record) (amount record))
     | None => skip
     end) st.

(** page.tsx, lines 178-184. *)
Definition deleteRecord (recordId : string) : Handler :=
  fun st =>
    (setRecords
       (filter (fun record => negb (String.eqb (id record) recordId))
               (records st)) ;;
     toast RecordDeleted) st.

(** The record a payment produces (the body of the [map] callback of
    [handlePartialPayment], lines 208-223). *)
Definition payRecord (clk : Clock) (paymentAmount : Z)
    (paymentNotes : option string) (record : LendingRecord) : LendingRecord :=
  let newPaidAmount := paidAmount record + paymentAmount in
  let newPaymentEntry :=
    PaymentEntry.mk (JsString.toString (Date_now clk)) paymentAmount
                    (new_Date clk) paymentNotes in
  {| id := id record; borrowerName := borrowerName record;
     amount := amount record; reason := reason record;
     lentDate := lentDate record;
     status := if newPaidAmount >=? amount record then paid else pending;
     notes := notes record;
     paidAmount := newPaidAmount;
     paymentHistory := paymentHistory record ++ [newPaymentEntry];
     createdAt := createdAt record |}.

(** page.tsx, lines 204-249. *)
Definition handlePartialPayment (clk : Clock) (recordId : string)
    (paymentAmount : Z) (paymentNotes : option string) : Handler :=
  fun st =>
    let records := records st in
    (setRecords
       (map (fun record =>
               if String.eqb (id record) recordId
               then payRecord clk paymentAmount paymentNotes record
               else record) records) ;;
     match find (fun r => String.eqb (id r) recordId) records with
     | Some record =>
         let newPaidAmount := paidAmount record + paymentAmount in
         let remainingAmount := amount record - newPaidAmount in
         if remainingAmount <=? 0
         then toast (FullyPaid (borrowerName record))
         else toast (PartialPaymentReceived (borrowerName record)
                                            paymentAmount remainingAmount)
     | None => skip
     end ;;
     setIsPartialPaymentOpen false ;;
     setSelectedRecordForPayment None) st.

(** [!x]: it holds of an absent or empty string, and of an empty amount
    field and the number 0. *)
Definition notStr (x : option string) : bool :=
  match x with Some s => negb (JsString.truthy s) | None => true end.

Definition notNum (x : option Z) : bool :=
  match x with Some n => n =? 0 | None => true end.

(** AddRecordForm.handleSubmit, page.tsx lines 671-682. *)
Definition AddRecordForm_handleSubmit (onSubmit : Partial.t -> Handler)
    (formData : Partial.t) : Handler :=
  if notStr (Partial.borrowerName formData)
     || notNum (Partial.amount formData)
     || notStr (Partial.reason formData)
  then toast MissingInformation
  else onSubmit formData.

(** PartialPaymentForm.handleSubmit, partial-payment-form.tsx lines
    42-69.  [paymentAmount] is [Number(paymentAmount)] already taken:
    [None] is [NaN]. *)
Definition PartialPaymentForm_handleSubmit (record : LendingRecord)
    (onSubmit : Z -> option string -> Handler)
    (paymentAmount : option Z) (paymentNotes : string) : Handler :=
  let remainingAmount := amount record - paidAmount record in
  let maxPayment := remainingAmount in
  match paymentAmount with
  | None => toast InvalidAmount
  | Some amount =>
      if (amount =? 0) || (amount <=? 0) then toast InvalidAmount
      else if amount >? maxPayment then toast (AmountTooHigh maxPayment)
      else onSubmit amount
             (if JsString.truthy paymentNotes then Some paymentNotes else None)
  end.

(* ------------------------------------------------------------------ *)
(** *** The write surface, as the page wires forms to handlers *)

(** The "Add Payment" button of a record card (lines 526-529, 626-629). *)
Definition openPartialPayment (record : LendingRecord) : Handler :=
  setSelectedRecordForPayment (Some record) ;; setIsPartialPaymentOpen true.

(** Submitting the payment dialog (lines 636-655): the form is rendered
    for the selected record and hands an accepted amount to
    [handlePartialPayment] under that record's id. *)
Definition submitPartialPayment (clk : Clock) (paymentAmount : option Z)
    (paymentNotes : string) : Handler :=
  fun st =>
    match selectedRecordForPayment st with
    | Some sel =>
        PartialPaymentForm_handleSubmit sel
          (fun amount notes => handlePartialPayment clk (id sel) amount notes)
          paymentAmount paymentNotes st
    | None => skip st
    end.

(** Submitting the add dialog (line 280). *)
Definition Add (clk : Clock) (formData : Partial.t) : Handler :=
  AddRecordForm_handleSubmit (handleAddRecord clk) formData.

(** Records compared field by field.  The state holds values, not
    objects: where the source reaches one object along two paths (the
    selected record and its slot in the record list) the slot is taken to
    be the first one of the list whose record equals the selected one. *)
Definition optionString_eqb (a b : option string) : bool :=
  match a, b with
  | Some x, Some y => String.eqb x y
  | None, None => true
  | _, _ => false
  end.

Definition PaymentEntry_eqb (a b : PaymentEntry.t) : bool :=
  String.eqb (PaymentEntry.id a) (PaymentEntry.id b)
  && (PaymentEntry.amount a =? PaymentEntry.amount b)
  && (PaymentEntry.date a =? PaymentEntry.date b)
  && optionString_eqb (PaymentEntry.notes a) (PaymentEntry.notes b).

Fixpoint history_eqb (l1 l2 : list PaymentEntry.t) : bool :=
  match l1, l2 with
  | [], [] => true
  | a :: l1', b :: l2' => PaymentEntry_eqb a b && history_eqb l1' l2'
  | _, _ => false
  end.

Definition LendingRecord_eqb (r1 r2 : LendingRecord) : bool :=
  String.eqb (id r1) (id r2)
  && String.eqb (borrowerName r1) (borrowerName r2)
  && (amount r1 =? amount r2)
  && String.eqb (reason r1) (reason r2)
  && (lentDate r1 =? lentDate r2)
  && Status_eqb (status r1) (status r2)
  && optionString_eqb (notes r1) (notes r2)
  && (paidAmount r1 =? paidAmount r2)
  && history_eqb (paymentHistory r1) (paymentHistory r2)
  && (createdAt r1 =? createdAt r2).

(** [record.paymentHistory.sort((a, b) => b.date.getTime() -
    a.date.getTime())] (partial-payment-form.tsx, lines 163-164): the
    array of the record is sorted in place, latest payment first. *)
Definition withSortedHistory (record : LendingRecord) : LendingRecord :=
  {| id := id record; borrowerName := borrowerName record;
     amount := amount record; reason := reason record;
     lentDate := lentDate record; status := status record;
     notes := notes record; paidAmount := paidAmount record;
     paymentHistory :=
       JsArray.sort (fun a b => PaymentEntry.date b - PaymentEntry.date a)
                    (paymentHistory record);
     createdAt := createdAt record |}.

(** The record list after the history of [record], one of its objects,
    has been sorted in place.  The object is found by its value: it is
    the first record of the list that equals [record] in every field, the
    id among them; a list that holds no such record is left as it is. *)
Fixpoint sortHistoryOf (record : LendingRecord) (rs : list LendingRecord)
    : list LendingRecord :=
  match rs with
  | [] => []
  | r :: rs' =>
      if LendingRecord_eqb r record
      then withSortedHistory r :: rs'
      else r :: sortHistoryOf record rs'
  end.

(** Rendering the payment dialog (page.tsx, lines 636-655): while a
    record is selected and the dialog is open, the form is mounted on the
    selected record and its render sorts the payment history of that
    record (partial-payment-form.tsx, lines 159-177).  The selected
    record is an object of the record list, so the list sees the sort. *)
Definition renderPartialPaymentForm : Handler :=
  fun st =>
    match selectedRecordForPayment st with
    | Some sel =>
        if isPartialPaymentOpen st
        then (setRecords (sortHistoryOf sel (records st)) ;;
              setSelectedRecordForPayment (Some (withSortedHistory sel))) st
        else skip st
    | None => skip st
    end.

(** A payment against a record shown on the overview: its button, the
    render of the dialog that the button opens, then the submit. *)
Definition ApplyPaymentTo (clk : Clock) (record : LendingRecord)
    (amount : Z) (paymentNotes : string) : Handler :=
  openPartialPayment record ;;
  renderPartialPaymentForm ;;
  submitPartialPayment clk (Some amount) paymentNotes.

(** A payment by record id.  The dialog is opened on the record of that
    id the page lists first; for an id the store does not hold there is
    no card and no dialog, and the call is the handler's own. *)
Definition ApplyPayment (clk : Clock) (recordId : string)
    (amount : Z) (paymentNotes : string) : Handler :=
  fun st =>
    match find (fun r => String.eqb (id r) recordId) (records st) with
    | Some record => ApplyPaymentTo clk record amount paymentNotes st
    | None =>
        handlePartialPayment clk recordId amount
          (if JsString.truthy paymentNotes then Some paymentNotes else None) st
    end.

Definition MarkFullyPaid (recordId : string) : Handler := markAsPaid recordId.
Definition Delete (recordId : string) : Handler := deleteRecord recordId.

(** Sequences of operations on the store. *)
Inductive Op : Type :=
| OpAdd (clk : Clock) (formData : Partial.t)
| OpApplyPayment (clk : Clock) (recordId : string) (amount : Z) (paymentNotes : string)
| OpMarkFullyPaid (recordId : string)
| OpDelete (recordId : string).

Definition perform (op : Op) : Handler :=
  match op with
  | OpAdd clk formData => Add clk formData
  | OpApplyPayment clk recordId amount paymentNotes =>
      ApplyPayment clk recordId amount paymentNotes
  | OpMarkFullyPaid recordId => MarkFullyPaid recordId
  | OpDelete recordId => Delete recordId
  end.

Definition run (ops : list Op) (st : App) : App :=
  fold_left (fun st op => fst (perform op st)) ops st.

Definition isAddOrPayment (op : Op) : bool :=
  match op with OpAdd _ _ | OpApplyPayment _ _ _ _ => true | _ => false end.

(* ------------------------------------------------------------------ *)
(** *** Aggregation (page.tsx, lines 95-137) *)

Definition isPending (record : LendingRecord) : bool :=
  Status_eqb (status record) pending.
Definition isPaid (record : LendingRecord) : bool :=
  Status_eqb (status record) paid.

Definition totalLent (records : list LendingRecord) : Z :=
  JsArray.reduce (fun sum record => sum + amount record) 0 records.

Definition totalPending (records : list LendingRecord) : Z :=
  JsArray.reduce (fun sum record => sum + (amount record - paidAmount record)) 0
    (filter isPending records).

Definition totalPaid (records : list LendingRecord) : Z :=
  JsArray.reduce (fun sum record => sum + amount record) 0
    (filter isPaid records).

Definition normalizeName (name : string) : string :=
  JsString.collapseSpaces (JsString.toLowerCase (JsString.trim name)).

(** Lines 122-131: the summary of a borrower takes one more record in. *)
Definition addToSummary (existing : BorrowerSummary) (record : LendingRecord)
    : BorrowerSummary :=
  let totalBorrowed' := totalBorrowed existing + amount record in
  let recordCount' := recordCount existing + 1 in
  let totalOwed' :=
    if isPending record
    then totalOwed existing + (amount record - paidAmount record)
    else totalOwed existing in
  let lastBorrowed' :=
    if lentDate record >? lastBorrowed existing
    then lentDate record else lastBorrowed existing in
  {| name := name existing; totalOwed := totalOwed';
     totalBorrowed := totalBorrowed'; recordCount := recordCount';
     lastBorrowed := lastBorrowed' |}.

(** The callback of the [reduce] of lines 110-135.  The summary fetched
    from the map, or a fresh one, is updated and stored under its key. *)
Definition summaryStep (map : JsMap.t BorrowerSummary) (record : LendingRecord)
    : JsMap.t BorrowerSummary :=
  let normalizedName := normalizeName (borrowerName record) in
  let displayName := JsString.trim (borrowerName record) in
  let existing :=
    orElse (JsMap.get map normalizedName)
           {| name := displayName; totalOwed := 0; totalBorrowed := 0;
              recordCount := 0; lastBorrowed := lentDate record |} in
  JsMap.set map normalizedName (addToSummary existing record).

Definition summaryMap (records : list LendingRecord) : JsMap.t BorrowerSummary :=
  JsArray.reduce summaryStep JsMap.empty records.

Definition borrowerSummaries (records : list LendingRecord) : list BorrowerSummary :=
  JsArray.sort (fun a b => totalOwed b - totalOwed a)
    (JsMap.values (summaryMap records)).

(* ================================================================== *)
(** ** Vocabulary of the specification *)

(** An operation fails, in the eyes of the user, when it raises a
    destructive toast: this is the only error channel of the source. *)
Definition failed (out : App * list Toast) : bool :=
  existsb destructive (snd out).

Definition sumZ (l : list Z) : Z := fold_right Z.add 0 l.

(** Remaining balance of a record. *)
Definition remaining (record : LendingRecord) : Z :=
  amount record - paidAmount record.

(** Sum of the amounts of the payment history. *)
Definition historyTotal (record : LendingRecord) : Z :=
  sumZ (map PaymentEntry.amount (paymentHistory record)).

(** paidAmount == sum(paymentHistory[*].amount) *)
Definition consistent (record : LendingRecord) : Prop :=
  paidAmount record = historyTotal record.

Definition ids (rs : list LendingRecord) : list string := map id rs.

Definition otherThan (recordId : string) (record : LendingRecord) : bool :=
  negb (String.eqb (id record) recordId).

(** [t] is [s] without its leading and trailing white space. *)
Definition isTrimOf (s t : string) : Prop :=
  exists pre post : string,
    s = (pre ++ t ++ post)%string /\
    JsString.allSpace pre /\ JsString.allSpace post /\
    (forall c u, t = String c u -> JsString.isSpace c = false) /\
    (forall c u, t = (u ++ String c EmptyString)%string -> JsString.isSpace c = false).

(** The letters, capital and small, in the order of the alphabet. *)
Definition capitalLetters : string := "ABCDEFGHIJKLMNOPQRSTUVWXYZ".
Definition smallLetters : string := "abcdefghijklmnopqrstuvwxyz".

Definition letterPairs : list (ascii * ascii) :=
  combine (list_ascii_of_string capitalLetters)
          (list_ascii_of_string smallLetters).

(** The small letter of a capital letter, looked up in the alphabet; any
    other character is left as it is. *)
Fixpoint lookupLetter (capitals smalls : string) (c : ascii) : ascii :=
  match capitals, smalls with
  | String u capitals', String l smalls' =>
      if Ascii.eqb c u then l else lookupLetter capitals' smalls' c
  | _, _ => c
  end.

Definition smallOf (c : ascii) : ascii :=
  lookupLetter capitalLetters smallLetters c.

(** [t] is [s] with every capital letter made small. *)
Definition isLowerOf (s t : string) : Prop :=
  Forall2 (fun c d => d = smallOf c)
          (list_ascii_of_string s) (list_ascii_of_string t).

(** [s] is empty or begins with a character that is no white space. *)
Definition startsInked (s : string) : Prop :=
  forall c u, s = String c u -> JsString.isSpace c = false.

(** [t] is [s] with every maximal run of white space made one space:
    a character that is no white space is kept, and a run of white space
    that the text after it does not continue gives one space. *)
Inductive isCollapseOf : string -> string -> Prop :=
| collapse_end : isCollapseOf EmptyString EmptyString
| collapse_char c s t :
    JsString.isSpace c = false -> isCollapseOf s t ->
    isCollapseOf (String c s) (String c t)
| collapse_run run s t :
    run <> EmptyString -> JsString.allSpace run -> startsInked s ->
    isCollapseOf s t ->
    isCollapseOf (run ++ s)%string (String " "%char t).

(** The normal form of a name as the specification words it: the name
    trimmed, then made lower case, then with its runs of white space
    collapsed to single spaces. *)
Definition normalForm (n k : string) : Prop :=
  exists a b, isTrimOf n a /\ isLowerOf a b /\ isCollapseOf b k.

(** Two names are names of one contact when they have a normal form in
    common. *)
Definition sameContact (n1 n2 : string) : Prop :=
  exists k, normalForm n1 k /\ normalForm n2 k.

(** Two characters that are equal or the capital and the small form of
    one letter; two texts that differ in letter case only. *)
Definition caseVariant (c d : ascii) : Prop :=
  c = d \/ In (c, d) letterPairs \/ In (d, c) letterPairs.

Definition sameUpToCase (s t : string) : Prop :=
  Forall2 caseVariant (list_ascii_of_string s) (list_ascii_of_string t).

(** Identity classes of borrowers. *)
Definition classKey (record : LendingRecord) : string :=
  normalizeName (borrowerName record).

Definition sameClass (r1 r2 : LendingRecord) : bool :=
  String.eqb (classKey r1) (classKey r2).

(** The first-encountered record of every class, in the order of the
    input; [seen] holds the keys of the classes met so far. *)
Fixpoint leadersFrom (seen : list string) (rs : list LendingRecord)
    : list LendingRecord :=
  match rs with
  | [] => []
  | r :: rs' =>
      if existsb (String.eqb (classKey r)) seen
      then leadersFrom seen rs'
      else r :: leadersFrom (classKey r :: seen) rs'
  end.

Definition leaders (rs : list LendingRecord) : list LendingRecord :=
  leadersFrom [] rs.

Definition members (rs : list LendingRecord) (l : LendingRecord)
    : list LendingRecord :=
  filter (sameClass l) rs.

Definition maxDate (d0 : Date) (rs : list LendingRecord) : Date :=
  fold_right Z.max d0 (map lentDate rs).

(** The summary the specification gives the class of [l] in [rs]. *)
Definition classSummary (rs : list LendingRecord) (l : LendingRecord)
    : BorrowerSummary :=
  {| name := JsString.trim (borrowerName l);
     totalOwed := sumZ (map remaining (filter isPending (members rs l)));
     totalBorrowed := sumZ (map amount (members rs l));
     recordCount := Z.of_nat (List.length (members rs l));
     lastBorrowed := maxDate (lentDate l) (members rs l) |}.

Definition owes (v : Z) (s : BorrowerSummary) : bool := totalOwed s =? v.

(** The comparator of the sort of the summaries, and the order it gives. *)
Definition owedCmp (a b : BorrowerSummary) : Z := totalOwed b - totalOwed a.
Definition owedDesc (a b : BorrowerSummary) : Prop := totalOwed a >= totalOwed b.

(** The entry of the map of summaries for the class that [l] leads. *)
Definition classEntry (g : LendingRecord -> BorrowerSummary) (l : LendingRecord)
    : string * BorrowerSummary :=
  (classKey l, g l).

(** The state in which the payment dialog stands open on [record] and
    has been rendered. *)
Definition dialogOn (record : LendingRecord) (st : App) : App :=
  mkApp (sortHistoryOf record (records st)) (isAddRecordOpen st) true
        (Some (withSortedHistory record)).

(** An operation is rejected: an error is raised and the record list is
    the same. *)
Definition rejected (h : Handler) (st : App) : Prop :=
  failed (h st) = true /\ records (fst (h st)) = records st.

(** Valid input of Add, in the words of the specification: a name that
    is not empty once trimmed, a positive amount, a reason that is not
    empty. *)
Definition validAdd (formData : Partial.t) (nm : string) : Prop :=
  Partial.borrowerName formData = Some nm /\
  JsString.trim nm <> EmptyString /\
  (exists a, Partial.amount formData = Some a /\ 0 < a) /\
  (exists rs, Partial.reason formData = Some rs /\ rs <> EmptyString).

(** Every id of the store is the rendering of a clock reading earlier
    than [now]. *)
Definition issuedBefore (now : Z) (rs : list LendingRecord) : Prop :=
  forall r, In r rs -> exists t, id r = JsString.toString t /\ t < now.

(* ------------------------------------------------------------------ *)
(** *** Sample data *)

Definition day1 : Date := 1700000000000.
Definition day2 : Date := 1700086400000.

Definition clock1 : Clock := mkClock 1700000001000 1700000001000.
Definition clock2 : Clock := mkClock 1700000002000 1700000002000.
Definition clock3 : Clock := mkClock 1700000003000 1700000003000.

Definition formRahul : Partial.t :=
  Partial.mk (Some "Rahul"%string) (Some 500) (Some "Lunch"%string)
             (Some day1) (Some ""%string).

Definition rahul : LendingRecord :=
  {| id := "1700000001000"; borrowerName := "Rahul"; amount := 500;
     reason := "Lunch"; lentDate := day1; status := pending;
     notes := Some ""%string; paidAmount := 0; paymentHistory := [];
     createdAt := 1700000001000 |}.

Definition rahulPartly : LendingRecord :=
  {| id := "1700000001000"; borrowerName := "Rahul"; amount := 500;
     reason := "Lunch"; lentDate := day1; status := pending;
     notes := Some ""%string; paidAmount := 200;
     paymentHistory :=
       [PaymentEntry.mk "1700000002000" 200 1700000002000 None];
     createdAt := 1700000001000 |}.

Definition amit : LendingRecord :=
  {| id := "1700000000500"; borrowerName := "Amit"; amount := 100;
     reason := "x"; lentDate := day1; status := pending;
     notes := Some ""%string; paidAmount := 0; paymentHistory := [];
     createdAt := 1700000000500 |}.

Definition amitAgain : LendingRecord :=
  {| id := "1700000000900"; borrowerName := "amit "; amount := 50;
     reason := "y"; lentDate := day2; status := pending;
     notes := Some ""%string; paidAmount := 0; paymentHistory := [];
     createdAt := 1700000000900 |}.

Definition formBlankName : Partial.t :=
  Partial.mk (Some "   "%string) (Some 100) (Some "Lunch"%string)
             (Some day1) (Some ""%string).

Definition formNegative : Partial.t :=
  Partial.mk (Some "Rahul"%string) (Some (-5)) (Some "Lunch"%string)
             (Some day1) (Some ""%string).

Definition formNoReason : Partial.t :=
  Partial.mk (Some "Rahul"%string) (Some 500) (Some ""%string)
             (Some day1) (Some ""%string).

(** Rahul after two payments, the history in the order of payment. *)
Definition rahulTwice : LendingRecord :=
  {| id := "1700000001000"; borrowerName := "Rahul"; amount := 500;
     reason := "Lunch"; lentDate := day1; status := pending;
     notes := Some ""%string; paidAmount := 300;
     paymentHistory :=
       [PaymentEntry.mk "1700000002000" 200 1700000002000 None;
        PaymentEntry.mk "1700000002500" 100 1700000002500 None];
     createdAt := 1700000001000 |}.

Definition storeA : App := mkApp [rahul] false false None.
Definition storeB : App := mkApp [rahulPartly; amit] false false None.
Definition storeC : App := mkApp [amit; rahulTwice] false false None.

(* ================================================================== *)
(** ** Further code of the page and of the payment form *)

Module JsText.

(** [s.startsWith(p)] *)
Fixpoint startsWith (s p : string) {struct p} : bool :=
  match p with
  | EmptyString => true
  | String a p' =>
      match s with
      | EmptyString => false
      | String b s' => Ascii.eqb a b && startsWith s' p'
      end
  end.

(** [s.includes(needle)]: the needle starts at some position of [s]. *)
Fixpoint includes (s needle : string) : bool :=
  match s with
  | EmptyString => startsWith s needle
  | String _ s' => startsWith s needle || includes s' needle
  end.

End JsText.

Module JsIndexed.

(** [arr.indexOf(x)] on numbers: the first position of [x], or -1;
    [i] is the position of the head of the list. *)
Fixpoint indexOfFrom (i : Z) (arr : list Z) (x : Z) : Z :=
  match arr with
  | [] => -1
  | y :: arr' => if y =? x then i else indexOfFrom (i + 1) arr' x
  end.

Definition indexOf (arr : list Z) (x : Z) : Z := indexOfFrom 0 arr x.

(** [arr.filter((x, index) => f(x, index))] *)
Fixpoint filterFrom {A : Type} (f : A -> Z -> bool) (i : Z) (l : list A)
    : list A :=
  match l with
  | [] => []
  | x :: l' =>
      if f x i then x :: filterFrom f (i + 1) l' else filterFrom f (i + 1) l'
  end.

Definition filterIndexed {A : Type} (f : A -> Z -> bool) (l : list A) : list A :=
  filterFrom f 0 l.

End JsIndexed.

(** The search of the overview (page.tsx, lines 140-144). *)
Definition filteredRecords (searchTerm : string) (records : list LendingRecord)
    : list LendingRecord :=
  filter (fun record =>
            JsText.includes (JsString.toLowerCase (borrowerName record))
                            (JsString.toLowerCase searchTerm)
            || JsText.includes (JsString.toLowerCase (reason record))
                               (JsString.toLowerCase searchTerm))
         records.

(** The contact dialog (page.tsx, lines 575 and 607-620).  Clicking a
    card sets [selectedBorrower] to the name on the card.  The dialog is
    rendered only while [selectedBorrower] is truthy, which a string is
    unless it is empty; [null], the value before any click and after the
    dialog is closed, is [None].  When rendered, the dialog gets the
    records whose normalized name is that of the selection. *)
Definition selectBorrower (borrower : BorrowerSummary) : option string :=
  Some (name borrower).

Definition contactRecords (selectedBorrower : option string)
    (records : list LendingRecord) : option (list LendingRecord) :=
  match selectedBorrower with
  | Some selected =>
      if JsString.truthy selected
      then Some (filter (fun r => String.eqb (normalizeName (borrowerName r))
                                             (normalizeName selected))
                        records)
      else None
  | None => None
  end.

(** ContactDetailView (page.tsx, lines 801-808, 841-842, 895-897,
    958-959), on the records of one contact. *)
Module ContactDetailView.

Definition totalOwed (records : list LendingRecord) : Z :=
  JsArray.reduce (fun sum record => sum + (amount record - paidAmount record)) 0
    (filter isPending records).

Definition totalBorrowed (records : list LendingRecord) : Z :=
  JsArray.reduce (fun sum record => sum + amount record) 0 records.

Definition totalPaid (records : list LendingRecord) : Z :=
  JsArray.reduce (fun sum record => sum + amount record) 0
    (filter isPaid records).

Definition pendingRecords (records : list LendingRecord) : list LendingRecord :=
  filter isPending records.

Definition paidRecords (records : list LendingRecord) : list LendingRecord :=
  filter isPaid records.

(** The two lists as they are shown, latest loan first. *)
Definition shownPending (records : list LendingRecord) : list LendingRecord :=
  JsArray.sort (fun a b => lentDate b - lentDate a) (pendingRecords records).

Definition shownPaid (records : list LendingRecord) : list LendingRecord :=
  JsArray.sort (fun a b => lentDate b - lentDate a) (paidRecords records).

(** "Recent Payments" of a pending record: the history sorted by date,
    latest first, and its first two entries.  The source sorts the
    history in place; [sortedHistory] is the history as the sort leaves
    it. *)
Definition sortedHistory (record : LendingRecord) : list PaymentEntry.t :=
  JsArray.sort (fun a b => PaymentEntry.date b - PaymentEntry.date a)
               (paymentHistory record).

Definition recentPayments (record : LendingRecord) : list PaymentEntry.t :=
  firstn 2 (sortedHistory record).

End ContactDetailView.

(** The quick amount buttons of the payment form
    (partial-payment-form.tsx, lines 121-127). *)
Definition quickAmounts (record : LendingRecord) : list Z :=
  let remainingAmount := amount record - paidAmount record in
  let arr := [Z.min 50 remainingAmount; Z.min 100 remainingAmount;
              Z.min 500 remainingAmount; remainingAmount] in
  JsIndexed.filterIndexed
    (fun amount index => (amount >? 0) && (JsIndexed.indexOf arr amount =? index))
    arr.

(* ------------------------------------------------------------------ *)
(** *** Vocabulary of the further properties *)

(** The readings of [Date.now()] taken by the Adds of a sequence. *)
Definition addClocks (ops : list Op) : list Z :=
  flat_map (fun op => match op with
                      | OpAdd clk _ => [Date_now clk]
                      | _ => []
                      end) ops.

Definition isMarkFree (op : Op) : bool :=
  match op with OpMarkFullyPaid _ => false | _ => true end.

(** The paid amount lies between 0 and the principal (0 for a principal
    that is not positive). *)
Definition withinPrincipal (record : LendingRecord) : Prop :=
  0 <= paidAmount record <= Z.max 0 (amount record).

(** The status says paid exactly when the principal has been reached. *)
Definition statusMatches (record : LendingRecord) : Prop :=
  status record = paid <-> amount record <= paidAmount record.

(** [r'] is [r] with, at most, another status, paid amount and history. *)
Definition sameLoan (r r' : LendingRecord) : Prop :=
  id r' = id r /\ borrowerName r' = borrowerName r /\
  amount r' = amount r /\ reason r' = reason r /\
  lentDate r' = lentDate r /\ notes r' = notes r /\
  createdAt r' = createdAt r.

(** [r'] is [r] after at most one payment: nothing was taken back, the
    entries of before are all kept, in some order, and what is new comes
    after them. *)
Definition paidOn (r r' : LendingRecord) : Prop :=
  paidAmount r <= paidAmount r' /\
  exists kept added,
    paymentHistory r' = kept ++ added /\
    Permutation kept (paymentHistory r) /\
    (List.length added <= 1)%nat.

(** [r'] is [r] but for the order of the entries of its history. *)
Definition sameButHistoryOrder (r r' : LendingRecord) : Prop :=
  id r' = id r /\ borrowerName r' = borrowerName r /\
  amount r' = amount r /\ reason r' = reason r /\
  lentDate r' = lentDate r /\ status r' = status r /\
  notes r' = notes r /\ paidAmount r' = paidAmount r /\
  createdAt r' = createdAt r /\
  Permutation (paymentHistory r) (paymentHistory r').

(** The invariant carried along a sequence whose Adds read strictly
    increasing clocks: ids are distinct and were issued before the Adds
    still to come, and paid amounts are within the principals. *)
Definition storeInvariant (later : list Z) (st : App) : Prop :=
  NoDup (ids (records st)) /\
  (forall i, In i (ids (records st)) ->
     exists t, i = JsString.toString t /\ Forall (fun c => t < c) later) /\
  Forall withinPrincipal (records st).

Definition descendingBy {A : Type} (key : A -> Z) (l : list A) : Prop :=
  StronglySorted (fun a b => key a >= key b) l.

(* ================================================================== *)
(** ** Properties *)

(** *** Scenarios of the specification, run on the model *)

Example scenario_A :
  fst (Add clock1 formRahul initialApp) = storeA /\
  (totalLent [rahul], totalPending [rahul], totalPaid [rahul]) = (500, 500, 0).
Proof. split; reflexivity. Qed.

Example scenario_B :
  records (fst (ApplyPayment clock2 "1700000001000" 200 "" storeA)) = [rahulPartly].
Proof. reflexivity. Qed.

Example scenario_C :
  let rs := records (fst (ApplyPayment clock3 "1700000001000" 300 ""
                            (mkApp [rahulPartly] false false None))) in
  map paidAmount rs = [500] /\ map status rs = [paid] /\
  (totalLent rs, totalPending rs, totalPaid rs) = (500, 0, 500).
Proof. repeat split; reflexivity. Qed.

Example scenario_D :
  let out := ApplyPayment clock3 "1700000001000" 600 ""
               (mkApp [rahulPartly] false false None) in
  records (fst out) = [rahulPartly] /\ snd out = [AmountTooHigh 300].
Proof. split; reflexivity. Qed.

Example normalizeName_samples :
  normalizeName "Rahul Sharma" = "rahul sharma"%string /\
  normalizeName "  rahul   sharma " = "rahul sharma"%string /\
  normalizeName "RAHUL SHARMA" = "rahul sharma"%string.
Proof. repeat split; reflexivity. Qed.

(* ------------------------------------------------------------------ *)
(** *** What each handler does to the record list *)

Section HandlerEquations.
Variable clk : Clock.
Variable st : App.

Lemma records_handleAddRecord recordData :
  exists r,
    records (fst (handleAddRecord clk recordData st)) = r :: records st /\
    snd (handleAddRecord clk recordData st) =
      [RecordAdded (amount r) (borrowerName r)] /\
    id r = JsString.toString (Date_now clk) /\
    borrowerName r =
      strOr (option_map JsString.trim (Partial.borrowerName recordData)) "" /\
    amount r = numOr (Partial.amount recordData) 0 /\
    status r = pending /\ paidAmount r = 0 /\ paymentHistory r = [] /\
    createdAt r = new_Date clk.
Proof. eexists; cbn; repeat split. Qed.

Lemma records_markAsPaid recordId :
  records (fst (markAsPaid recordId st)) =
  map (fun record => if String.eqb (id record) recordId
                     then withStatus record paid else record) (records st).
Proof.
  unfold markAsPaid.
  destruct (find _ (records st)); reflexivity.
Qed.

Lemma records_deleteRecord recordId :
  records (fst (deleteRecord recordId st)) =
  filter (otherThan recordId) (records st).
Proof. reflexivity. Qed.

Lemma records_handlePartialPayment recordId paymentAmount paymentNotes :
  records (fst (handlePartialPayment clk recordId paymentAmount paymentNotes st)) =
  map (fun record => if String.eqb (id record) recordId
                     then payRecord clk paymentAmount paymentNotes record
                     else record) (records st).
Proof.
  unfold handlePartialPayment.
  destruct (find _ (records st)) as [r|]; [|reflexivity].
  cbn. destruct (_ <=? 0); reflexivity.
Qed.

Lemma failed_handlePartialPayment recordId paymentAmount paymentNotes :
  failed (handlePartialPayment clk recordId paymentAmount paymentNotes st) = false.
Proof.
  unfold handlePartialPayment.
  destruct (find _ (records st)) as [r|]; [|reflexivity].
  cbn. destruct (_ <=? 0); reflexivity.
Qed.
End HandlerEquations.

(* ================================================================== *)
(** ** Sorting latest first *)

Section SortDescending.
Context {A : Type}.
Variable key : A -> Z.

Lemma insertDesc_Permutation x l :
  Permutation (JsArray.insert (fun a b => key b - key a) x l) (x :: l).
Proof.
  induction l as [|y l IH]; cbn; [reflexivity|].
  destruct (key y - key x <=? 0); [reflexivity|].
  rewrite IH. apply perm_swap.
Qed.

Lemma sortDesc_Permutation l :
  Permutation (JsArray.sort (fun a b => key b - key a) l) l.
Proof.
  induction l as [|x l IH]; cbn; [constructor|].
  rewrite insertDesc_Permutation. now constructor.
Qed.

Lemma insertDesc_sorted x l :
  descendingBy key l ->
  descendingBy key (JsArray.insert (fun a b => key b - key a) x l).
Proof.
  unfold descendingBy. induction 1 as [|y l Hs IH Hy]; cbn.
  - repeat constructor.
  - destruct (Z.leb_spec (key y - key x) 0) as [Hle|Hgt].
    + constructor; [now constructor|].
      constructor; [lia|].
      rewrite Forall_forall in *. intros z Hz. specialize (Hy z Hz). lia.
    + constructor; [exact IH|].
      rewrite Forall_forall in *. intros z Hz.
      apply (Permutation_in _ (insertDesc_Permutation x l)) in Hz.
      destruct Hz as [<-|Hz]; [lia|now apply Hy].
Qed.

Lemma sortDesc_sorted l :
  descendingBy key (JsArray.sort (fun a b => key b - key a) l).
Proof.
  induction l as [|x l IH]; cbn; [constructor|now apply insertDesc_sorted].
Qed.

Lemma insertDesc_stable v x l :
  filter (fun a => key a =? v) (JsArray.insert (fun a b => key b - key a) x l)
  = filter (fun a => key a =? v) (x :: l).
Proof.
  induction l as [|y l IH]; [reflexivity|].
  cbn [JsArray.insert].
  destruct (Z.leb_spec (key y - key x) 0) as [Hle|Hgt]; [reflexivity|].
  cbn [filter] in *. rewrite IH.
  destruct (Z.eqb_spec (key x) v), (Z.eqb_spec (key y) v); trivial; lia.
Qed.

Lemma sortDesc_stable v l :
  filter (fun a => key a =? v) (JsArray.sort (fun a b => key b - key a) l)
  = filter (fun a => key a =? v) l.
Proof.
  induction l as [|x l IH]; [reflexivity|].
  cbn [JsArray.sort fold_right].
  fold (JsArray.sort (fun a b => key b - key a) l).
  rewrite insertDesc_stable. cbn [filter]. now rewrite IH.
Qed.

End SortDescending.

Lemma sumZ_Permutation l l' : Permutation l l' -> sumZ l = sumZ l'.
Proof.
  unfold sumZ. induction 1; cbn; lia.
Qed.

Lemma descendingBy_app {A} (key : A -> Z) l1 l2 :
  descendingBy key (l1 ++ l2) ->
  forall a b, In a l1 -> In b l2 -> key b <= key a.
Proof.
  unfold descendingBy. induction l1 as [|x l1 IH]; cbn; intros H a b Ha Hb;
    [destruct Ha|].
  inversion H as [|? ? Hs Hx]; subst.
  destruct Ha as [<-|Ha].
  - rewrite Forall_forall in Hx.
    assert (In b (l1 ++ l2)) by (apply in_or_app; now right).
    specialize (Hx b H0). lia.
  - now apply IH.
Qed.

(* ------------------------------------------------------------------ *)
(** *** Records as values, and the sort of a history in place *)

Lemma optionString_eqb_eq a b : optionString_eqb a b = true <-> a = b.
Proof.
  destruct a as [x|], b as [y|]; cbn; try (split; congruence).
  rewrite String.eqb_eq. split; congruence.
Qed.

Lemma PaymentEntry_eqb_eq a b : PaymentEntry_eqb a b = true <-> a = b.
Proof.
  unfold PaymentEntry_eqb. destruct a, b; cbn.
  rewrite !andb_true_iff, String.eqb_eq, !Z.eqb_eq, optionString_eqb_eq.
  split; [intros [[[-> ->] ->] ->]; reflexivity|].
  intros H. injection H as -> -> -> ->. auto.
Qed.

Lemma history_eqb_eq l1 l2 : history_eqb l1 l2 = true <-> l1 = l2.
Proof.
  revert l2. induction l1 as [|a l1 IH]; intros [|b l2]; cbn;
    try (split; congruence).
  rewrite andb_true_iff, PaymentEntry_eqb_eq, IH. split.
  - intros [-> ->]. reflexivity.
  - intros H. injection H as -> ->. auto.
Qed.

Lemma Status_eqb_eq a b : Status_eqb a b = true <-> a = b.
Proof. destruct a, b; cbn; split; congruence. Qed.

Lemma LendingRecord_eqb_eq r1 r2 : LendingRecord_eqb r1 r2 = true <-> r1 = r2.
Proof.
  unfold LendingRecord_eqb. destruct r1, r2; cbn.
  rewrite !andb_true_iff, !String.eqb_eq, !Z.eqb_eq, !optionString_eqb_eq,
    Status_eqb_eq, history_eqb_eq.
  split.
  - intros [[[[[[[[[-> ->] ->] ->] ->] ->] ->] ->] ->] ->]. reflexivity.
  - intros H. injection H as -> -> -> -> -> -> -> -> -> ->.
    repeat split.
Qed.

Lemma LendingRecord_eqb_refl r : LendingRecord_eqb r r = true.
Proof. now apply LendingRecord_eqb_eq. Qed.

Lemma LendingRecord_eqb_id r record :
  String.eqb (id r) (id record) = false -> LendingRecord_eqb r record = false.
Proof.
  intros H. destruct (LendingRecord_eqb r record) eqn:E; [|reflexivity].
  apply LendingRecord_eqb_eq in E. subst. now rewrite String.eqb_refl in H.
Qed.

Lemma sortHistoryOf_absent record rs :
  (forall r, In r rs -> String.eqb (id r) (id record) = false) ->
  sortHistoryOf record rs = rs.
Proof.
  induction rs as [|r rs IH]; intros H; cbn; [reflexivity|].
  rewrite (LendingRecord_eqb_id _ _ (H r (or_introl eq_refl))).
  f_equal. apply IH. intros x Hx. apply H. now right.
Qed.

Lemma sortHistoryOf_Forall2 (R : LendingRecord -> LendingRecord -> Prop)
    record rs :
  (forall r, R r r) -> (forall r, R r (withSortedHistory r)) ->
  Forall2 R rs (sortHistoryOf record rs).
Proof.
  intros Hr Hs. induction rs as [|r rs IH]; cbn; [constructor|].
  destruct (LendingRecord_eqb r record).
  - constructor; [apply Hs|]. clear IH. induction rs; constructor; auto.
  - constructor; [apply Hr|exact IH].
Qed.

Lemma sortHistoryOf_Forall (P : LendingRecord -> Prop) record rs :
  (forall r, P r -> P (withSortedHistory r)) ->
  Forall P rs -> Forall P (sortHistoryOf record rs).
Proof.
  intros Hs H. induction H as [|r rs Hr Hrs IH]; cbn; [constructor|].
  destruct (LendingRecord_eqb r record); constructor; auto.
Qed.

Lemma sortHistoryOf_ids record rs : ids (sortHistoryOf record rs) = ids rs.
Proof.
  unfold ids. induction rs as [|r rs IH]; cbn; [reflexivity|].
  destruct (LendingRecord_eqb r record); cbn; [reflexivity|now rewrite IH].
Qed.

Lemma sortHistoryOf_others record rs :
  filter (fun r => negb (String.eqb (id r) (id record)))
         (sortHistoryOf record rs) =
  filter (fun r => negb (String.eqb (id r) (id record))) rs.
Proof.
  induction rs as [|r rs IH]; cbn; [reflexivity|].
  destruct (LendingRecord_eqb r record) eqn:E; cbn.
  - apply LendingRecord_eqb_eq in E. subst r.
    now rewrite String.eqb_refl.
  - now rewrite IH.
Qed.

Lemma sortHistoryOf_found record recordId rs :
  find (fun r => String.eqb (id r) recordId) rs = Some record ->
  find (fun r => String.eqb (id r) recordId) (sortHistoryOf record rs)
  = Some (withSortedHistory record).
Proof.
  induction rs as [|r rs IH]; cbn; [discriminate|].
  destruct (String.eqb (id r) recordId) eqn:E.
  - intros H. injection H as ->. rewrite LendingRecord_eqb_refl. cbn.
    now rewrite E.
  - intros H. pose proof (find_some _ _ H) as [_ Hid].
    assert (En : LendingRecord_eqb r record = false).
    { apply LendingRecord_eqb_id. apply String.eqb_eq in Hid. subst recordId.
      exact E. }
    rewrite En. cbn. rewrite E. now apply IH.
Qed.

Lemma sortHistoryOf_at p record q :
  (forall r, In r p -> String.eqb (id r) (id record) = false) ->
  sortHistoryOf record (p ++ record :: q) = p ++ withSortedHistory record :: q.
Proof.
  induction p as [|r p IH]; intros H; cbn.
  - now rewrite LendingRecord_eqb_refl.
  - rewrite (LendingRecord_eqb_id _ _ (H r (or_introl eq_refl))).
    f_equal. apply IH. intros x Hx. apply H. now right.
Qed.

Lemma withSortedHistory_entries record :
  Permutation (paymentHistory (withSortedHistory record))
              (paymentHistory record).
Proof. apply sortDesc_Permutation. Qed.

Lemma withSortedHistory_consistent record :
  consistent record -> consistent (withSortedHistory record).
Proof.
  unfold consistent, historyTotal. intros H.
  change (paidAmount (withSortedHistory record)) with (paidAmount record).
  rewrite H. apply sumZ_Permutation, Permutation_map, Permutation_sym,
    withSortedHistory_entries.
Qed.

(* ------------------------------------------------------------------ *)
(** *** The payment dialog, step by step *)

(** The click on "Add Payment" and the render that follows. *)
Lemma open_then_render record st :
  (openPartialPayment record ;; renderPartialPaymentForm) st
  = (dialogOn record st, []).
Proof. reflexivity. Qed.

Lemma ApplyPaymentTo_submit clk record amt paymentNotes st :
  ApplyPaymentTo clk record amt paymentNotes st =
  submitPartialPayment clk (Some amt) paymentNotes (dialogOn record st).
Proof.
  set (st1 := mkApp (records st) (isAddRecordOpen st) true (Some record)).
  assert (E : (renderPartialPaymentForm ;;
               submitPartialPayment clk (Some amt) paymentNotes) st1 =
              submitPartialPayment clk (Some amt) paymentNotes
                                   (dialogOn record st)).
  { unfold andThen.
    change (renderPartialPaymentForm st1)
      with (dialogOn record st, @nil Toast).
    cbv beta iota.
    now destruct (submitPartialPayment clk (Some amt) paymentNotes
                                       (dialogOn record st)). }
  unfold ApplyPaymentTo. unfold andThen at 1.
  change (openPartialPayment record st) with (st1, @nil Toast).
  cbv beta iota. rewrite E.
  now destruct (submitPartialPayment clk (Some amt) paymentNotes
                                     (dialogOn record st)).
Qed.

(** The three ways a submit of the payment dialog can end. *)
Lemma submit_cases clk sel amt paymentNotes st :
  selectedRecordForPayment st = Some sel ->
  let out := submitPartialPayment clk (Some amt) paymentNotes st in
  (amt <= 0 /\ out = (st, [InvalidAmount])) \/
  (0 < amt /\ remaining sel < amt /\
   out = (st, [AmountTooHigh (remaining sel)])) \/
  (0 < amt <= remaining sel /\
   out = handlePartialPayment clk (id sel) amt
           (if JsString.truthy paymentNotes then Some paymentNotes else None)
           st).
Proof.
  intros Hsel. cbn zeta. unfold submitPartialPayment. rewrite Hsel.
  unfold PartialPaymentForm_handleSubmit, remaining.
  destruct (Z.eqb_spec amt 0); [left; split; [lia|reflexivity]|].
  destruct (Z.leb_spec amt 0); [left; split; [lia|reflexivity]|].
  cbn [orb].
  destruct (amt >? amount sel - paidAmount sel) eqn:E.
  - right; left. rewrite Z.gtb_lt in E. repeat split; trivial.
  - right; right. rewrite Z.gtb_ltb, Z.ltb_ge in E. repeat split; trivial.
Qed.

(** The three ways a payment against [record] can end; [shown] is the
    record list as the render of the dialog has left it. *)
Lemma ApplyPaymentTo_cases clk record amt paymentNotes st :
  let out := ApplyPaymentTo clk record amt paymentNotes st in
  let shown := sortHistoryOf record (records st) in
  (amt <= 0 /\ records (fst out) = shown /\ snd out = [InvalidAmount]) \/
  (0 < amt /\ remaining record < amt /\ records (fst out) = shown /\
   snd out = [AmountTooHigh (remaining record)]) \/
  (0 < amt <= remaining record /\ failed out = false /\
   records (fst out) =
     map (fun r => if String.eqb (id r) (id record)
                   then payRecord clk amt
                          (if JsString.truthy paymentNotes
                           then Some paymentNotes else None) r
                   else r) shown).
Proof.
  cbn zeta. rewrite ApplyPaymentTo_submit.
  destruct (submit_cases clk (withSortedHistory record) amt paymentNotes
              (dialogOn record st) eq_refl)
    as [(H & ->)|[(H1 & H2 & ->)|(H & ->)]].
  - left. repeat split; trivial.
  - right; left. repeat split; trivial.
  - right; right. split; [exact H|]. split.
    + apply failed_handlePartialPayment.
    + now rewrite records_handlePartialPayment.
Qed.

Lemma ApplyPaymentTo_accepted clk record amt paymentNotes st :
  0 < amt <= remaining record ->
  ApplyPaymentTo clk record amt paymentNotes st =
  handlePartialPayment clk (id record) amt
    (if JsString.truthy paymentNotes then Some paymentNotes else None)
    (dialogOn record st).
Proof.
  intros Hamt. rewrite ApplyPaymentTo_submit.
  destruct (submit_cases clk (withSortedHistory record) amt paymentNotes
              (dialogOn record st) eq_refl)
    as [(H & _)|[(_ & H & _)|(_ & E)]];
    [unfold remaining in *; cbn in *; lia ..|exact E].
Qed.

Lemma ApplyPaymentTo_rejected clk record amt paymentNotes st :
  amt <= 0 \/ remaining record < amt ->
  fst (ApplyPaymentTo clk record amt paymentNotes st) = dialogOn record st.
Proof.
  intros Hbad. rewrite ApplyPaymentTo_submit.
  destruct (submit_cases clk (withSortedHistory record) amt paymentNotes
              (dialogOn record st) eq_refl)
    as [(_ & ->)|[(_ & _ & ->)|(H & _)]]; trivial.
  unfold remaining in *. cbn in *. lia.
Qed.

Lemma sameButHistoryOrder_refl r : sameButHistoryOrder r r.
Proof. unfold sameButHistoryOrder. repeat split. apply Permutation_refl. Qed.

Lemma sameButHistoryOrder_sorted r : sameButHistoryOrder r (withSortedHistory r).
Proof.
  unfold sameButHistoryOrder. repeat split.
  apply Permutation_sym, withSortedHistory_entries.
Qed.



(** A payment by id is the payment against the record of that id that
    the page lists first. *)
Lemma ApplyPayment_on_listed clk recordId record amt paymentNotes st :
  find (fun r => String.eqb (id r) recordId) (records st) = Some record ->
  id record = recordId /\ In record (records st) /\
  ApplyPayment clk recordId amt paymentNotes st =
  ApplyPaymentTo clk record amt paymentNotes st.
Proof.
  intros H. unfold ApplyPayment. rewrite H.
  apply find_some in H. destruct H as [Hin E]. apply String.eqb_eq in E.
  auto.
Qed.

Lemma nth_error_map_if {A} (p : A -> bool) (f : A -> A) l i x :
  nth_error l i = Some x ->
  nth_error (map (fun a => if p a then f a else a) l) i =
  Some (if p x then f x else x).
Proof. intros H. rewrite nth_error_map, H. reflexivity. Qed.

Lemma filter_map_if_neg {A} (p : A -> bool) (f : A -> A) l :
  (forall a, p a = true -> p (f a) = true) ->
  filter (fun a => negb (p a)) (map (fun a => if p a then f a else a) l) =
  filter (fun a => negb (p a)) l.
Proof.
  intros Hp. induction l as [|a l IH]; cbn; [reflexivity|].
  destruct (p a) eqn:E.
  - rewrite (Hp a E). cbn. exact IH.
  - rewrite E. cbn. f_equal. exact IH.
Qed.

Lemma map_if_absent {A} (p : A -> bool) (f : A -> A) l :
  (forall a, In a l -> p a = false) ->
  map (fun a => if p a then f a else a) l = l.
Proof.
  intros H. induction l as [|a l IH]; cbn; [reflexivity|].
  rewrite (H a (or_introl eq_refl)). f_equal. apply IH.
  intros b Hb. apply H. now right.
Qed.

Lemma filter_all {A} (p : A -> bool) l :
  (forall a, In a l -> p a = true) -> filter p l = l.
Proof.
  intros H. induction l as [|a l IH]; cbn; [reflexivity|].
  rewrite (H a (or_introl eq_refl)). f_equal. apply IH.
  intros b Hb. apply H. now right.
Qed.

Lemma absent_id_eqb recordId rs :
  ~ In recordId (ids rs) ->
  forall r, In r rs -> String.eqb (id r) recordId = false.
Proof.
  intros Hn r Hr. apply String.eqb_neq. intros E. apply Hn.
  rewrite <- E. unfold ids. now apply in_map.
Qed.

Lemma find_absent recordId rs :
  ~ In recordId (ids rs) ->
  find (fun r => String.eqb (id r) recordId) rs = None.
Proof.
  intros Hn. destruct (find _ rs) as [r|] eqn:E; [|reflexivity].
  apply find_some in E. destruct E as [Hin He].
  rewrite (absent_id_eqb _ _ Hn r Hin) in He. discriminate.
Qed.

Lemma reduce_sum {A} (f : A -> Z) (l : list A) (init : Z) :
  JsArray.reduce (fun sum a => sum + f a) init l = init + sumZ (map f l).
Proof.
  unfold JsArray.reduce, sumZ. revert init.
  induction l as [|a l IH]; intros init; cbn.
  - lia.
  - rewrite IH. lia.
Qed.

(* ------------------------------------------------------------------ *)
(** *** Payments *)





(* ------------------------------------------------------------------ *)
(** *** Marking a record paid *)

(** C5.  Marking a record of the store fully paid sets its status to paid
    and touches nothing else: the paid amount and the payment history are
    those of before, and so is every other field.  Hence a record marked
    while its paid amount was below the principal is paid with a paid
    amount still below the principal. *)
Theorem MarkFullyPaid_changes_status_only st i record :
  nth_error (records st) i = Some record ->
  let st' := fst (MarkFullyPaid (id record) st) in
  List.length (records st') = List.length (records st) /\
  exists record',
    nth_error (records st') i = Some record' /\
    status record' = paid /\
    paidAmount record' = paidAmount record /\
    paymentHistory record' = paymentHistory record /\
    id record' = id record /\
    borrowerName record' = borrowerName record /\
    amount record' = amount record /\
    reason record' = reason record /\
    lentDate record' = lentDate record /\
    notes record' = notes record /\
    createdAt record' = createdAt record /\
    (paidAmount record < amount record ->
     status record' = paid /\ paidAmount record' < amount record').
Proof.
  intros Hnth st'. unfold st', MarkFullyPaid.
  rewrite records_markAsPaid. split; [apply length_map|].
  exists (withStatus record paid). split.
  { rewrite (nth_error_map_if _ _ _ _ _ Hnth), String.eqb_refl. reflexivity. }
  cbn. repeat split; assumption.
Qed.

(** Rahul has paid 200 of 500 and is marked paid. *)
Lemma MarkFullyPaid_changes_status_only_witness :
  exists record',
    nth_error (records (fst (MarkFullyPaid "1700000001000" storeB))) 0
      = Some record' /\
    status record' = paid /\ paidAmount record' < amount record'.
Proof.
  destruct (MarkFullyPaid_changes_status_only storeB 0 rahulPartly eq_refl)
    as (_ & r' & H1 & _ & _ & _ & _ & _ & _ & _ & _ & _ & _ & H).
  exists r'. split; [exact H1|]. apply H. reflexivity.
Defined.

(* ------------------------------------------------------------------ *)
(** *** Frame of the mutations that address one record *)

Lemma payRecord_id clk amt n r : id (payRecord clk amt n r) = id r.
Proof. reflexivity. Qed.

Lemma frame_of_update recordId (f : LendingRecord -> LendingRecord) rs :
  (forall r, id (f r) = id r) ->
  filter (otherThan recordId)
    (map (fun r => if String.eqb (id r) recordId then f r else r) rs) =
  filter (otherThan recordId) rs.
Proof.
  intros Hid. unfold otherThan.
  apply (filter_map_if_neg (fun r => String.eqb (id r) recordId)).
  intros a Ha. rewrite Hid. exact Ha.
Qed.

Lemma ApplyPaymentTo_frame clk record amt paymentNotes st :
  filter (otherThan (id record))
    (records (fst (ApplyPaymentTo clk record amt paymentNotes st))) =
  filter (otherThan (id record)) (records st).
Proof.
  destruct (ApplyPaymentTo_cases clk record amt paymentNotes st)
    as [(_ & Hr & _)|[(_ & _ & Hr & _)|(_ & _ & Hr)]]; rewrite Hr;
    try apply sortHistoryOf_others.
  rewrite frame_of_update by (intros r; apply payRecord_id).
  apply sortHistoryOf_others.
Qed.

(** C10.  Applying a payment, marking fully paid and deleting, each
    addressed to the record id [recordId], leave the records of every
    other id as they were, field for field and in their order: the
    sub-list of the records whose id differs from [recordId] is the same
    list before and after. *)
Theorem single_record_mutations_frame clk st recordId amt paymentNotes :
  filter (otherThan recordId)
    (records (fst (ApplyPayment clk recordId amt paymentNotes st))) =
  filter (otherThan recordId) (records st)
  /\
  filter (otherThan recordId) (records (fst (MarkFullyPaid recordId st))) =
  filter (otherThan recordId) (records st)
  /\
  filter (otherThan recordId) (records (fst (Delete recordId st))) =
  filter (otherThan recordId) (records st).
Proof.
  repeat split.
  - unfold ApplyPayment.
    destruct (find _ (records st)) as [record|] eqn:E.
    + apply find_some in E. destruct E as [_ E]. apply String.eqb_eq in E.
      subst recordId. apply ApplyPaymentTo_frame.
    + rewrite records_handlePartialPayment.
      apply frame_of_update. intros r. apply payRecord_id.
  - unfold MarkFullyPaid. rewrite records_markAsPaid.
    apply frame_of_update. reflexivity.
  - unfold Delete. rewrite records_deleteRecord.
    induction (records st) as [|a l IH]; cbn; [reflexivity|].
    destruct (otherThan recordId a) eqn:E; cbn; rewrite ?E, IH; reflexivity.
Qed.

(* ------------------------------------------------------------------ *)
(** *** Ids that the store does not hold *)

(** C6, as stated, fails: on an id the store does not hold none of the
    three operations raises an error, and deleting announces success. *)
Lemma absent_id_raises_no_error :
  ~ In "42"%string (ids (records storeA)) /\
  ~ rejected (ApplyPayment clock2 "42" 100 "") storeA /\
  ~ rejected (MarkFullyPaid "42") storeA /\
  ~ rejected (Delete "42") storeA /\
  snd (Delete "42" storeA) = [RecordDeleted].
Proof.
  repeat split; try (intros [H _]; discriminate H).
  cbn. intros [H|[]]. discriminate H.
Qed.

(** C6, amended.  On an id the store does not hold, applying a payment,
    marking fully paid and deleting leave the record list as it was and
    raise no error: the first two raise no toast at all, and deleting
    raises its usual "Record Deleted" toast.  The record list is also left
    as it was by a payment dialog that was opened on a record whose id the
    store no longer holds. *)
Theorem absent_id_is_silent_noop clk st recordId amt paymentNotes :
  ~ In recordId (ids (records st)) ->
  (let out := ApplyPayment clk recordId amt paymentNotes st in
   records (fst out) = records st /\ snd out = []) /\
  (let out := MarkFullyPaid recordId st in
   records (fst out) = records st /\ snd out = []) /\
  (let out := Delete recordId st in
   records (fst out) = records st /\ snd out = [RecordDeleted]) /\
  (forall record, id record = recordId ->
     records (fst (ApplyPaymentTo clk record amt paymentNotes st)) = records st).
Proof.
  intros Hn.
  pose proof (absent_id_eqb _ _ Hn) as Hne.
  pose proof (find_absent _ _ Hn) as Hf.
  split; [|split; [|split]].
  - split.
    + unfold ApplyPayment. rewrite Hf. rewrite records_handlePartialPayment.
      now apply map_if_absent.
    + unfold ApplyPayment, handlePartialPayment. rewrite Hf. reflexivity.
  - split.
    + unfold MarkFullyPaid. rewrite records_markAsPaid.
      now apply map_if_absent.
    + unfold MarkFullyPaid, markAsPaid. rewrite Hf. reflexivity.
  - split; [|reflexivity].
    unfold Delete. rewrite records_deleteRecord. apply filter_all.
    intros a Ha. unfold otherThan. now rewrite (Hne a Ha).
  - intros record <-.
    destruct (ApplyPaymentTo_cases clk record amt paymentNotes st)
      as [(_ & Hr & _)|[(_ & _ & Hr & _)|(_ & _ & Hr)]]; rewrite Hr;
      rewrite (sortHistoryOf_absent _ _ Hne); trivial.
    now apply map_if_absent.
Qed.

Lemma absent_id_is_silent_noop_witness :
  records (fst (Delete "42" storeB)) = records storeB /\
  snd (Delete "42" storeB) = [RecordDeleted].
Proof.
  refine (proj1 (proj2 (proj2
            (absent_id_is_silent_noop clock1 storeB "42" 0 "" _)))).
  cbn. intros [H|[H|[]]]; discriminate H.
Defined.

(* ------------------------------------------------------------------ *)
(** *** Global totals *)

(** C2.  For every list of records, [totalLent] is the sum of the
    principals of all records, [totalPending] the sum of principal minus
    paid amount over the pending records, and [totalPaid] (the "returned"
    total) the sum of the full principal, not of the paid amount, over the
    paid records. *)
Theorem GlobalTotals_sums (rs : list LendingRecord) :
  totalLent rs = sumZ (map amount rs) /\
  totalPending rs =
    sumZ (map (fun r => amount r - paidAmount r)
              (filter (fun r => Status_eqb (status r) pending) rs)) /\
  totalPaid rs =
    sumZ (map amount (filter (fun r => Status_eqb (status r) paid) rs)).
Proof.
  unfold totalLent, totalPending, totalPaid.
  rewrite !reduce_sum. repeat split; apply Z.add_0_l.
Qed.

(** A record marked paid after 200 of 500 counts 500 as returned. *)
Example totalPaid_counts_principal :
  totalPaid (records (fst (MarkFullyPaid "1700000001000" storeB))) = 500.
Proof. reflexivity. Qed.

(* ------------------------------------------------------------------ *)
(** *** Adding a record: what the form rejects *)

(** C7, as stated, fails: a name made of blanks is not empty for the
    form, although it is empty once trimmed; the record is created, with
    an empty borrower name. *)
Lemma Add_accepts_blank_name :
  JsString.trim "   " = EmptyString /\
  ~ rejected (Add clock1 formBlankName) initialApp /\
  map borrowerName (records (fst (Add clock1 formBlankName initialApp)))
    = [EmptyString].
Proof.
  repeat split. intros [H _]. discriminate H.
Qed.

(** The guard of the form tests the amount against zero only. *)
Example Add_accepts_negative_amount :
  map amount (records (fst (Add clock1 formNegative initialApp))) = [-5] /\
  failed (Add clock1 formNegative initialApp) = false.
Proof. split; reflexivity. Qed.

(** C7, amended.  Add is rejected with the destructive toast "Missing
    Information", creates no record and leaves the state as it was,
    whenever the borrower name is empty as entered, the amount is missing
    or zero, or the reason is empty. *)
Theorem Add_rejects_missing_fields clk formData st :
  (Partial.borrowerName formData = None \/
   Partial.borrowerName formData = Some EmptyString) \/
  (Partial.amount formData = None \/ Partial.amount formData = Some 0) \/
  (Partial.reason formData = None \/
   Partial.reason formData = Some EmptyString) ->
  let out := Add clk formData st in
  failed out = true /\ snd out = [MissingInformation] /\ fst out = st.
Proof.
  intros H out.
  assert (E : out = (st, [MissingInformation])).
  { unfold out, Add, AddRecordForm_handleSubmit.
    destruct H as [[H|H]|[[H|H]|[H|H]]]; rewrite H; cbn;
      rewrite ?orb_true_r; reflexivity. }
  rewrite E. repeat split.
Qed.

Lemma Add_rejects_missing_fields_witness :
  fst (Add clock2 formNoReason storeA) = storeA.
Proof.
  refine (proj2 (proj2 (Add_rejects_missing_fields clock2 formNoReason storeA _))).
  right; right; right. reflexivity.
Defined.

(* ------------------------------------------------------------------ *)
(** *** Paid amount against payment history *)

Lemma sumZ_app l1 l2 : sumZ (l1 ++ l2) = sumZ l1 + sumZ l2.
Proof.
  unfold sumZ. induction l1 as [|a l1 IH]; cbn; [reflexivity|].
  rewrite IH. lia.
Qed.

Lemma payRecord_consistent clk amt n r :
  consistent r -> consistent (payRecord clk amt n r).
Proof.
  unfold consistent, historyTotal. cbn. intros H.
  rewrite map_app, sumZ_app, H. cbn. lia.
Qed.

Lemma Forall_map_if {A} (P : A -> Prop) (p : A -> bool) (f : A -> A) l :
  (forall a, P a -> P (f a)) ->
  Forall P l -> Forall P (map (fun a => if p a then f a else a) l).
Proof.
  intros Hf H. induction H as [|a l Ha _ IH]; cbn; constructor; trivial.
  destruct (p a); auto.
Qed.

Lemma Forall_filter_keep {A} (P : A -> Prop) (p : A -> bool) l :
  Forall P l -> Forall P (filter p l).
Proof.
  intros H. induction H as [|a l Ha _ IH]; cbn; [constructor|].
  destruct (p a); auto.
Qed.

(** Every operation of the store keeps the records consistent. *)
Lemma perform_consistent op st :
  Forall consistent (records st) ->
  Forall consistent (records (fst (perform op st))).
Proof.
  intros H. destruct op as [clk fd|clk rid amt n|rid|rid]; cbn [perform].
  - unfold Add, AddRecordForm_handleSubmit.
    destruct (_ || _); [exact H|].
    destruct (records_handleAddRecord clk st fd)
      as (r & -> & _ & _ & _ & _ & _ & Hp & Hh & _).
    constructor; [|exact H].
    unfold consistent, historyTotal. rewrite Hp, Hh. reflexivity.
  - unfold ApplyPayment.
    destruct (find _ (records st)) as [record|].
    + assert (Hs : Forall consistent (sortHistoryOf record (records st)))
        by (apply sortHistoryOf_Forall;
            [apply withSortedHistory_consistent|exact H]).
      destruct (ApplyPaymentTo_cases clk record amt n st)
        as [(_ & -> & _)|[(_ & _ & -> & _)|(_ & _ & ->)]]; trivial.
      apply Forall_map_if; [apply payRecord_consistent|exact Hs].
    + rewrite records_handlePartialPayment.
      apply Forall_map_if; [apply payRecord_consistent|exact H].
  - unfold MarkFullyPaid. rewrite records_markAsPaid.
    apply Forall_map_if; [|exact H]. intros a Ha. exact Ha.
  - unfold Delete. rewrite records_deleteRecord.
    now apply Forall_filter_keep.
Qed.

Lemma run_consistent ops st :
  Forall consistent (records st) ->
  Forall consistent (records (run ops st)).
Proof.
  revert st. unfold run.
  induction ops as [|op ops IH]; intros st H; cbn; [exact H|].
  apply IH. now apply perform_consistent.
Qed.

(** C3.  After any sequence of Add and ApplyPayment operations from the
    empty store, the paid amount of every record equals the sum of the
    amounts of the entries of its payment history. *)
Theorem paidAmount_matches_history (ops : list Op) :
  forallb isAddOrPayment ops = true ->
  Forall (fun record =>
            paidAmount record =
            sumZ (map PaymentEntry.amount (paymentHistory record)))
         (records (run ops initialApp)).
Proof.
  intros _. apply (run_consistent ops initialApp). constructor.
Qed.

Lemma paidAmount_matches_history_witness :
  Forall (fun record =>
            paidAmount record =
            sumZ (map PaymentEntry.amount (paymentHistory record)))
         (records (run [OpAdd clock1 formRahul;
                        OpApplyPayment clock2 "1700000001000" 200 "";
                        OpApplyPayment clock3 "1700000001000" 300 ""]
                       initialApp)).
Proof.
  apply paidAmount_matches_history. reflexivity.
Defined.

(* ------------------------------------------------------------------ *)
(** *** Adding a record: the record created *)

Lemma to_int_proper (n : Z) :
  Z.to_int n <> Decimal.Pos Decimal.Nil /\ Z.to_int n <> Decimal.Neg Decimal.Nil.
Proof.
  destruct n as [|p|p]; cbn; split; try discriminate;
    intros H; injection H as H;
    exact (DecimalPos.Unsigned.to_uint_nonnil p H).
Qed.

(** Distinct numbers have distinct decimal renderings. *)
Lemma toString_inj (a b : Z) :
  JsString.toString a = JsString.toString b -> a = b.
Proof.
  unfold JsString.toString. intros H.
  apply DecimalZ.to_int_inj.
  destruct (to_int_proper a) as [Ha1 Ha2], (to_int_proper b) as [Hb1 Hb2].
  pose proof (NilZero.isi _ Ha1 Ha2) as Ia.
  pose proof (NilZero.isi _ Hb1 Hb2) as Ib.
  rewrite H in Ia. congruence.
Qed.

Lemma issuedBefore_fresh now rs :
  issuedBefore now rs -> ~ In (JsString.toString now) (ids rs).
Proof.
  intros Hb Hin. unfold ids in Hin. apply in_map_iff in Hin.
  destruct Hin as (r & Hid & Hr).
  destruct (Hb r Hr) as (t & Ht & Hlt).
  rewrite Ht in Hid. apply toString_inj in Hid. lia.
Qed.

Section Trim.
Import JsString.
Local Open Scope string_scope.

Lemma allSpace_nil : allSpace "".
Proof. constructor. Qed.

Lemma allSpace_cons c s :
  isSpace c = true -> allSpace s -> allSpace (String c s).
Proof. intros Hc Hs. constructor; assumption. Qed.

Lemma trimStart_split s :
  exists pre, s = pre ++ trimStart s /\ allSpace pre.
Proof.
  induction s as [|c s (pre & E & Hp)]; cbn.
  - exists "". split; [reflexivity|apply allSpace_nil].
  - destruct (isSpace c) eqn:Hc.
    + exists (String c pre). cbn. split; [now rewrite <- E|].
      now apply allSpace_cons.
    + exists "". split; [reflexivity|apply allSpace_nil].
Qed.

Lemma trimStart_head s c u :
  trimStart s = String c u -> isSpace c = false.
Proof.
  induction s as [|a s IH]; cbn; [discriminate|].
  destruct (isSpace a) eqn:Ha; [exact IH|].
  intros H. injection H as <- _. exact Ha.
Qed.

Lemma trimEnd_split s :
  exists post, s = trimEnd s ++ post /\ allSpace post.
Proof.
  induction s as [|c s (post & E & Hp)]; cbn.
  - exists "". split; [reflexivity|apply allSpace_nil].
  - destruct (trimEnd s) as [|d t] eqn:Et.
    + cbn in E. subst post.
      destruct (isSpace c) eqn:Hc.
      * exists (String c s). split; [reflexivity|now apply allSpace_cons].
      * exists s. split; [reflexivity|exact Hp].
    + exists post. cbn. split; [now rewrite E at 1|exact Hp].
Qed.

Lemma trimEnd_head s c u :
  trimEnd s = String c u -> exists u', s = String c u'.
Proof.
  destruct s as [|a s]; cbn; [discriminate|].
  destruct (trimEnd s); [destruct (isSpace a)|]; intros H;
    try discriminate; injection H as <- _; eauto.
Qed.

Lemma trimEnd_last s :
  forall u c, trimEnd s = u ++ String c "" -> isSpace c = false.
Proof.
  induction s as [|a s IH]; intros u c; cbn.
  - destruct u; discriminate.
  - destruct (trimEnd s) as [|d t] eqn:Et.
    + destruct (isSpace a) eqn:Ha.
      * destruct u; discriminate.
      * destruct u as [|b u]; cbn; intros H.
        -- injection H as <-. exact Ha.
        -- injection H as _ H. destruct u; discriminate.
    + destruct u as [|b u]; cbn; intros H; [discriminate|].
      injection H as _ H. exact (IH u c H).
Qed.

Lemma append_assoc (a b c : string) : (a ++ b) ++ c = a ++ (b ++ c).
Proof. induction a as [|x a IH]; cbn; [reflexivity|now rewrite IH]. Qed.

(** [trim] removes the white space at both ends and nothing else. *)
Lemma trim_isTrimOf s : isTrimOf s (trim s).
Proof.
  unfold isTrimOf, trim.
  destruct (trimStart_split s) as (pre & E1 & Hpre).
  destruct (trimEnd_split (trimStart s)) as (post & E2 & Hpost).
  exists pre, post. repeat split; trivial.
  - rewrite <- E2. exact E1.
  - intros c u H. apply trimEnd_head in H. destruct H as [u' H].
    exact (trimStart_head _ _ _ H).
  - intros c u H. exact (trimEnd_last _ _ _ H).
Qed.

Lemma truthy_iff s : truthy s = true <-> s <> "".
Proof. destruct s; cbn; split; congruence. Qed.
End Trim.

(** C8, as stated, fails on the freshness of the id: the id is the clock
    reading of the moment, and an Add at a reading that the store already
    holds as an id repeats that id. *)
Lemma Add_may_repeat_an_id :
  ~ (forall r,
       records (fst (Add clock1 formRahul storeA)) = r :: records storeA ->
       ~ In (id r) (ids (records storeA))).
Proof.
  intros H. apply (H rahul); [reflexivity|]. cbn. left. reflexivity.
Qed.

(** C8, amended.  Add with valid input puts a new record in front of the
    records held so far, which stay as they were and in their order.  The
    new record is pending, has paid amount 0 and an empty payment
    history; its borrower name is the input without its leading and
    trailing white space; its id is the decimal rendering of the clock
    reading, and differs from every id of the store whenever those ids
    were issued at earlier readings. *)
Theorem Add_prepends_pending_record clk formData st nm :
  validAdd formData nm ->
  let out := Add clk formData st in
  failed out = false /\
  exists r,
    records (fst out) = r :: records st /\
    status r = pending /\
    paidAmount r = 0 /\
    paymentHistory r = [] /\
    borrowerName r = JsString.trim nm /\
    isTrimOf nm (borrowerName r) /\
    createdAt r = new_Date clk /\
    id r = JsString.toString (Date_now clk) /\
    (issuedBefore (Date_now clk) (records st) ->
     ~ In (id r) (ids (records st))).
Proof.
  intros (Hn & Ht & (a & Ha & Hpos) & (rs & Hr & Hrs)) out.
  assert (Hnm : nm <> EmptyString) by (intros ->; now apply Ht).
  assert (E : out = handleAddRecord clk formData st).
  { unfold out, Add, AddRecordForm_handleSubmit.
    rewrite Hn, Ha, Hr. cbn.
    apply truthy_iff in Hnm. apply truthy_iff in Hrs. rewrite Hnm, Hrs.
    destruct (Z.eqb_spec a 0); [lia|reflexivity]. }
  rewrite E.
  destruct (records_handleAddRecord clk st formData)
    as (r & Hrec & Hts & Hid & Hname & _ & Hst & Hp & Hh & Hc).
  split. { unfold failed. rewrite Hts. reflexivity. }
  assert (Hb : borrowerName r = JsString.trim nm).
  { rewrite Hname, Hn. cbn. apply truthy_iff in Ht. now rewrite Ht. }
  exists r. repeat split; trivial.
  - rewrite Hb. apply trim_isTrimOf.
  - rewrite Hid. apply issuedBefore_fresh.
Qed.

Lemma Add_prepends_pending_record_witness :
  exists r,
    records (fst (Add clock2 formRahul storeB)) = r :: records storeB /\
    status r = pending /\
    ~ In (id r) (ids (records storeB)).
Proof.
  assert (Hv : validAdd formRahul "Rahul").
  { repeat split; cbn; try discriminate.
    - exists 500. split; [reflexivity|lia].
    - exists "Lunch"%string. split; [reflexivity|discriminate]. }
  destruct (Add_prepends_pending_record clock2 formRahul storeB "Rahul" Hv)
    as (_ & r & H1 & H2 & _ & _ & _ & _ & _ & _ & H9).
  exists r. repeat split; trivial. apply H9.
  intros r0 [<-|[<-|[]]]; cbn.
  - exists 1700000001000. split; [reflexivity|lia].
  - exists 1700000000500. split; [reflexivity|lia].
Defined.

(* ------------------------------------------------------------------ *)
(** *** The stable sort of the summaries *)

Lemma insert_Permutation x l :
  Permutation (JsArray.insert owedCmp x l) (x :: l).
Proof.
  induction l as [|y l IH]; cbn; [reflexivity|].
  destruct (owedCmp x y <=? 0); [reflexivity|].
  rewrite IH. apply perm_swap.
Qed.

Lemma sort_Permutation l : Permutation (JsArray.sort owedCmp l) l.
Proof.
  induction l as [|x l IH]; cbn; [constructor|].
  rewrite insert_Permutation. now constructor.
Qed.

Lemma insert_sorted x l :
  StronglySorted owedDesc l ->
  StronglySorted owedDesc (JsArray.insert owedCmp x l).
Proof.
  induction 1 as [|y l Hs IH Hy]; cbn.
  - repeat constructor.
  - unfold owedDesc in *.
    destruct (Z.leb_spec (owedCmp x y) 0) as [Hle|Hgt]; unfold owedCmp in *.
    + constructor; [now constructor|].
      constructor; [lia|].
      rewrite Forall_forall in *. intros z Hz. specialize (Hy z Hz). lia.
    + constructor; [exact IH|].
      rewrite Forall_forall in *. intros z Hz.
      apply (Permutation_in _ (insert_Permutation x l)) in Hz.
      destruct Hz as [<-|Hz]; [lia|now apply Hy].
Qed.

Lemma sort_sorted l : StronglySorted owedDesc (JsArray.sort owedCmp l).
Proof.
  induction l as [|x l IH]; cbn; [constructor|now apply insert_sorted].
Qed.

(** Summaries that owe the same come out in the order they went in. *)
Lemma insert_owes v x l :
  filter (owes v) (JsArray.insert owedCmp x l) = filter (owes v) (x :: l).
Proof.
  induction l as [|y l IH]; [reflexivity|].
  cbn [JsArray.insert].
  destruct (Z.leb_spec (owedCmp x y) 0) as [Hle|Hgt]; [reflexivity|].
  cbn [filter] in *. rewrite IH.
  unfold owes, owedCmp in *.
  destruct (Z.eqb_spec (totalOwed x) v), (Z.eqb_spec (totalOwed y) v);
    trivial; lia.
Qed.

Lemma sort_owes v l :
  filter (owes v) (JsArray.sort owedCmp l) = filter (owes v) l.
Proof.
  induction l as [|x l IH]; [reflexivity|].
  cbn [JsArray.sort fold_right]. fold (JsArray.sort owedCmp l).
  rewrite insert_owes. cbn [filter]. now rewrite IH.
Qed.

(* ------------------------------------------------------------------ *)
(** *** Classes of borrowers and their first records *)

Lemma mem_true k (seen : list string) :
  existsb (String.eqb k) seen = true <-> In k seen.
Proof.
  rewrite existsb_exists. split.
  - intros (x & Hx & E). apply String.eqb_eq in E. now subst.
  - intros H. exists k. split; [exact H|apply String.eqb_refl].
Qed.

Lemma mem_false k (seen : list string) :
  existsb (String.eqb k) seen = false <-> ~ In k seen.
Proof.
  rewrite <- mem_true. destruct (existsb _ seen); split; congruence.
Qed.

Lemma leadersFrom_In seen rs l :
  In l (leadersFrom seen rs) -> In l rs /\ ~ In (classKey l) seen.
Proof.
  revert seen. induction rs as [|a rs IH]; intros seen; cbn; [tauto|].
  destruct (existsb _ seen) eqn:E.
  - intros H. apply IH in H. tauto.
  - intros [<-|H].
    + split; [now left|now apply mem_false].
    + apply IH in H. cbn in H. tauto.
Qed.

Lemma leadersFrom_covers seen rs r :
  In r rs -> ~ In (classKey r) seen ->
  exists l, In l (leadersFrom seen rs) /\ classKey l = classKey r.
Proof.
  revert seen. induction rs as [|a rs IH]; intros seen; cbn; [tauto|].
  intros [->|Hr] Hs.
  - apply mem_false in Hs. rewrite Hs. exists r. split; [now left|reflexivity].
  - destruct (existsb _ seen) eqn:E.
    + now apply IH.
    + destruct (String.eqb_spec (classKey a) (classKey r)) as [Ek|Ek].
      * exists a. split; [now left|exact Ek].
      * destruct (IH (classKey a :: seen) Hr) as (l & Hl & El).
        { cbn. intros [H|H]; [now apply Ek|now apply Hs]. }
        exists l. split; [now right|exact El].
Qed.

Lemma leadersFrom_NoDup seen rs :
  NoDup (map classKey (leadersFrom seen rs)).
Proof.
  revert seen. induction rs as [|a rs IH]; intros seen; cbn; [constructor|].
  destruct (existsb _ seen); [apply IH|].
  cbn. constructor; [|apply IH].
  intros H. apply in_map_iff in H. destruct H as (l & El & Hl).
  apply leadersFrom_In in Hl. destruct Hl as [_ Hl]. apply Hl.
  left. now rewrite El.
Qed.

Lemma leadersFrom_first seen rs l :
  In l (leadersFrom seen rs) ->
  exists p q, rs = p ++ l :: q /\ existsb (sameClass l) p = false.
Proof.
  revert seen. induction rs as [|a rs IH]; intros seen; cbn; [tauto|].
  destruct (existsb _ seen) eqn:E.
  - intros H. pose proof (leadersFrom_In _ _ _ H) as [_ Hl].
    destruct (IH _ H) as (p & q & -> & Hp).
    exists (a :: p), q. split; [reflexivity|].
    cbn. rewrite Hp, orb_false_r. unfold sameClass.
    apply String.eqb_neq. intros Ek. apply mem_true in E.
    apply Hl. now rewrite Ek.
  - intros [<-|H].
    + exists [], rs. split; reflexivity.
    + pose proof (leadersFrom_In _ _ _ H) as [_ Hl].
      destruct (IH _ H) as (p & q & -> & Hp).
      exists (a :: p), q. split; [reflexivity|].
      cbn. rewrite Hp, orb_false_r. unfold sameClass.
      apply String.eqb_neq. intros Ek. apply Hl. left. now rewrite Ek.
Qed.

Lemma leadersFrom_snoc seen p r :
  leadersFrom seen (p ++ [r]) =
  leadersFrom seen p ++
  (if existsb (String.eqb (classKey r)) seen || existsb (sameClass r) p
   then [] else [r]).
Proof.
  revert seen. induction p as [|a p IH]; intros seen; cbn.
  - rewrite orb_false_r. now destruct (existsb _ seen).
  - destruct (existsb (String.eqb (classKey a)) seen) eqn:E.
    + rewrite IH. f_equal.
      unfold sameClass at 2.
      destruct (String.eqb_spec (classKey r) (classKey a)) as [Ek|Ek];
        [|reflexivity].
      rewrite Ek, E. reflexivity.
    + cbn. rewrite IH. do 2 f_equal. cbn.
      unfold sameClass at 2.
      destruct (String.eqb (classKey r) (classKey a)),
        (existsb (String.eqb (classKey r)) seen); reflexivity.
Qed.

Lemma leaders_snoc p r :
  leaders (p ++ [r]) =
  leaders p ++ (if existsb (sameClass r) p then [] else [r]).
Proof. unfold leaders. now rewrite leadersFrom_snoc. Qed.

Lemma sameClass_sym a b : sameClass a b = sameClass b a.
Proof. unfold sameClass. apply String.eqb_sym. Qed.

Lemma new_class_no_leader p r l :
  existsb (sameClass r) p = false -> In l (leaders p) -> sameClass l r = false.
Proof.
  intros He Hl. apply leadersFrom_In in Hl. destruct Hl as [Hl _].
  rewrite sameClass_sym.
  destruct (sameClass r l) eqn:E; [|reflexivity].
  assert (existsb (sameClass r) p = true)
    by (apply existsb_exists; eauto).
  congruence.
Qed.

Lemma old_class_leader p r :
  existsb (sameClass r) p = true ->
  exists l, In l (leaders p) /\ sameClass l r = true.
Proof.
  intros He. apply existsb_exists in He. destruct He as (x & Hx & E).
  destruct (leadersFrom_covers [] p x Hx) as (l & Hl & Ek); [intros []|].
  exists l. split; [exact Hl|].
  unfold sameClass in *. apply String.eqb_eq in E.
  apply String.eqb_eq. congruence.
Qed.

(* ------------------------------------------------------------------ *)
(** *** The map of summaries, key by key *)

Section MapOfLeaders.
Variable g : LendingRecord -> BorrowerSummary.

Lemma get_absent ls k :
  (forall l, In l ls -> String.eqb (classKey l) k = false) ->
  JsMap.get (map (classEntry g) ls) k = None.
Proof.
  induction ls as [|a ls IH]; intros H; cbn; [reflexivity|].
  rewrite (H a (or_introl eq_refl)). apply IH.
  intros l Hl. apply H. now right.
Qed.

Lemma get_present ls l0 :
  NoDup (map classKey ls) -> In l0 ls ->
  JsMap.get (map (classEntry g) ls) (classKey l0) = Some (g l0).
Proof.
  induction ls as [|a ls IH]; intros Hnd Hin; cbn; [destruct Hin|].
  inversion Hnd as [|? ? Hna Hnd']; subst.
  destruct Hin as [->|Hin]; [now rewrite String.eqb_refl|].
  destruct (String.eqb_spec (classKey a) (classKey l0)) as [E|E].
  - exfalso. apply Hna. rewrite E. now apply in_map.
  - now apply IH.
Qed.

Lemma set_absent ls k v :
  (forall l, In l ls -> String.eqb (classKey l) k = false) ->
  JsMap.set (map (classEntry g) ls) k v = map (classEntry g) ls ++ [(k, v)].
Proof.
  induction ls as [|a ls IH]; intros H; cbn; [reflexivity|].
  rewrite (H a (or_introl eq_refl)). f_equal. apply IH.
  intros l Hl. apply H. now right.
Qed.

Lemma set_present ls l0 v :
  NoDup (map classKey ls) -> In l0 ls ->
  JsMap.set (map (classEntry g) ls) (classKey l0) v =
  map (fun l => (classKey l,
                 if String.eqb (classKey l) (classKey l0) then v else g l)) ls.
Proof.
  induction ls as [|a ls IH]; intros Hnd Hin; cbn; [destruct Hin|].
  inversion Hnd as [|? ? Hna Hnd']; subst.
  destruct (String.eqb_spec (classKey a) (classKey l0)) as [E|E].
  - f_equal. apply map_ext_in. intros l Hl.
    destruct (String.eqb_spec (classKey l) (classKey l0)) as [E'|E'];
      [|reflexivity].
    exfalso. apply Hna. rewrite E, <- E'. now apply in_map.
  - f_equal. destruct Hin as [->|Hin]; [congruence|]. now apply IH.
Qed.
End MapOfLeaders.

Lemma NoDup_key_inj ls l l0 :
  NoDup (map classKey ls) -> In l ls -> In l0 ls ->
  classKey l = classKey l0 -> l = l0.
Proof.
  induction ls as [|a ls IH]; intros Hnd Hl Hl0 E; [destruct Hl|].
  inversion Hnd as [|? ? Hna Hnd']; subst.
  destruct Hl as [->|Hl], Hl0 as [->|Hl0]; trivial.
  - exfalso. apply Hna. rewrite E. now apply in_map.
  - exfalso. apply Hna. rewrite <- E. now apply in_map.
  - now apply IH.
Qed.

(* ------------------------------------------------------------------ *)
(** *** The summary of a class, one record at a time *)

Lemma members_snoc rs r l :
  members (rs ++ [r]) l = members rs l ++ (if sameClass l r then [r] else []).
Proof. unfold members. rewrite filter_app. reflexivity. Qed.

Lemma members_none p r :
  existsb (sameClass r) p = false -> members p r = [].
Proof.
  unfold members. induction p as [|a p IH]; cbn; [reflexivity|].
  intros H. apply orb_false_elim in H. destruct H as [-> H]. now apply IH.
Qed.

Lemma maxDate_snoc d0 ms r :
  maxDate d0 (ms ++ [r]) = Z.max (lentDate r) (maxDate d0 ms).
Proof.
  unfold maxDate. induction ms as [|m ms IH]; cbn; [reflexivity|].
  rewrite IH. lia.
Qed.

Lemma classSummary_snoc p r l :
  classSummary (p ++ [r]) l =
  if sameClass l r then addToSummary (classSummary p l) r else classSummary p l.
Proof.
  unfold classSummary. rewrite members_snoc.
  destruct (sameClass l r); [|now rewrite app_nil_r].
  unfold addToSummary. cbn [name totalOwed totalBorrowed recordCount lastBorrowed].
  f_equal.
  - rewrite filter_app. cbn [filter].
    destruct (isPending r); rewrite ?app_nil_r; trivial.
    rewrite map_app, sumZ_app. unfold remaining. cbn. lia.
  - rewrite map_app, sumZ_app. cbn. lia.
  - rewrite length_app. cbn [List.length]. lia.
  - rewrite maxDate_snoc.
    destruct (Z.gtb_spec (lentDate r) (maxDate (lentDate l) (members p l))); lia.
Qed.

Lemma classSummary_fresh p r :
  existsb (sameClass r) p = false ->
  classSummary p r =
  {| name := JsString.trim (borrowerName r); totalOwed := 0;
     totalBorrowed := 0; recordCount := 0; lastBorrowed := lentDate r |}.
Proof.
  intros H. unfold classSummary. rewrite (members_none _ _ H). reflexivity.
Qed.

(** The map built by the [reduce] holds, in the order in which the
    classes were first met, the summary of every class. *)
Lemma summaryMap_by_class rs :
  summaryMap rs = map (classEntry (classSummary rs)) (leaders rs).
Proof.
  induction rs as [|r p IH] using rev_ind; [reflexivity|].
  unfold summaryMap, JsArray.reduce in *.
  rewrite fold_left_app. cbn [fold_left]. rewrite IH. clear IH.
  unfold summaryStep. fold (classKey r).
  rewrite leaders_snoc.
  pose proof (leadersFrom_NoDup [] p) as Hnd. fold (leaders p) in Hnd.
  destruct (existsb (sameClass r) p) eqn:He.
  - destruct (old_class_leader _ _ He) as (l0 & Hl0 & E0).
    assert (Ek : classKey r = classKey l0).
    { unfold sameClass in E0. apply String.eqb_eq in E0. now symmetry. }
    rewrite Ek.
    rewrite (get_present _ _ _ Hnd Hl0). cbn [orElse].
    rewrite (set_present _ _ _ _ Hnd Hl0).
    rewrite app_nil_r. apply map_ext_in. intros l Hl.
    unfold classEntry. f_equal.
    rewrite classSummary_snoc. unfold sameClass. rewrite Ek.
    destruct (String.eqb_spec (classKey l) (classKey l0)) as [E|E];
      [|reflexivity].
    now rewrite (NoDup_key_inj _ _ _ Hnd Hl Hl0 E).
  - assert (Hne : forall l, In l (leaders p) ->
                            String.eqb (classKey l) (classKey r) = false).
    { intros l Hl. exact (new_class_no_leader _ _ _ He Hl). }
    rewrite (get_absent _ _ _ Hne). cbn [orElse].
    rewrite (set_absent _ _ _ _ Hne).
    rewrite map_app. cbn [map]. f_equal.
    + apply map_ext_in. intros l Hl. unfold classEntry. f_equal.
      rewrite classSummary_snoc. unfold sameClass. now rewrite (Hne l Hl).
    + unfold classEntry. do 2 f_equal. rewrite classSummary_snoc.
      unfold sameClass. rewrite String.eqb_refl.
      now rewrite (classSummary_fresh _ _ He).
Qed.

Lemma maxDate_bounds d0 ms :
  (d0 <= maxDate d0 ms /\
   forall m, In m ms -> lentDate m <= maxDate d0 ms) /\
  (maxDate d0 ms = d0 \/ exists m, In m ms /\ lentDate m = maxDate d0 ms).
Proof.
  unfold maxDate. induction ms as [|a ms [[IH1 IH2] IH3]]; cbn.
  - split; [split|]; [lia|intros m []|now left].
  - split; [split|].
    + lia.
    + intros m [<-|Hm]; [lia|]. specialize (IH2 m Hm). lia.
    + destruct (Z.max_spec (lentDate a) (fold_right Z.max d0 (map lentDate ms)))
        as [[_ ->]|[_ ->]].
      * destruct IH3 as [->|(m & Hm & E)]; [now left|].
        right. exists m. split; [now right|exact E].
      * right. exists a. split; [now left|reflexivity].
Qed.

(* ------------------------------------------------------------------ *)
(** *** Trimming, lower case and runs of white space *)

Section Normalize.
Import JsString.
Local Open Scope string_scope.

Lemma lowerChar_idem c : lowerChar (lowerChar c) = lowerChar c.
Proof.
  destruct c as [[] [] [] [] [] [] [] []]; reflexivity.
Qed.

Lemma isSpace_lowerChar c : isSpace (lowerChar c) = isSpace c.
Proof.
  destruct c as [[] [] [] [] [] [] [] []]; reflexivity.
Qed.

Lemma toLowerCase_idem s : toLowerCase (toLowerCase s) = toLowerCase s.
Proof.
  induction s as [|c s IH]; cbn; [reflexivity|].
  now rewrite lowerChar_idem, IH.
Qed.

Lemma trimStart_fix s :
  (forall c u, s = String c u -> isSpace c = false) -> trimStart s = s.
Proof.
  destruct s as [|c s]; cbn; [reflexivity|].
  intros H. now rewrite (H c s eq_refl).
Qed.

Lemma trimEnd_cons c x :
  trimEnd x <> "" -> trimEnd (String c x) = String c (trimEnd x).
Proof. cbn. destruct (trimEnd x); [congruence|reflexivity]. Qed.

Lemma trimEnd_idem s : trimEnd (trimEnd s) = trimEnd s.
Proof.
  induction s as [|c s IH]; cbn; [reflexivity|].
  destruct (trimEnd s) as [|d e] eqn:E.
  - destruct (isSpace c) eqn:Hc; cbn; [reflexivity|now rewrite Hc].
  - rewrite trimEnd_cons; rewrite IH; [reflexivity|discriminate].
Qed.

Lemma trim_idem s : trim (trim s) = trim s.
Proof.
  unfold trim. rewrite (trimStart_fix (trimEnd (trimStart s))).
  - apply trimEnd_idem.
  - intros c u H. apply trimEnd_head in H. destruct H as [u' H].
    exact (trimStart_head _ _ _ H).
Qed.

Lemma trimStart_lower s : trimStart (toLowerCase s) = toLowerCase (trimStart s).
Proof.
  induction s as [|c s IH]; cbn; [reflexivity|].
  rewrite isSpace_lowerChar. now destruct (isSpace c).
Qed.

Lemma trimEnd_lower s : trimEnd (toLowerCase s) = toLowerCase (trimEnd s).
Proof.
  induction s as [|c s IH]; cbn; [reflexivity|].
  rewrite IH, isSpace_lowerChar.
  destruct (trimEnd s); cbn; [now destruct (isSpace c)|reflexivity].
Qed.

Lemma trim_lower s : trim (toLowerCase s) = toLowerCase (trim s).
Proof. unfold trim. now rewrite trimStart_lower, trimEnd_lower. Qed.

Lemma replaceRuns_lower b s :
  replaceRuns b (toLowerCase s) = toLowerCase (replaceRuns b s).
Proof.
  revert b. induction s as [|c s IH]; intros b; cbn; [reflexivity|].
  rewrite isSpace_lowerChar.
  destruct (isSpace c); [destruct b|]; cbn; now rewrite IH.
Qed.

Lemma replaceRuns_idem b s :
  replaceRuns b (replaceRuns b s) = replaceRuns b s.
Proof.
  revert b. induction s as [|c s IH]; intros b; cbn; [reflexivity|].
  destruct (isSpace c) eqn:Hc; [destruct b|]; cbn.
  - apply IH.
  - now rewrite IH.
  - now rewrite Hc, IH.
Qed.

Lemma trimStart_replaceRuns b s :
  trimStart (replaceRuns b s) = replaceRuns false (trimStart s).
Proof.
  revert b. induction s as [|c s IH]; intros b; cbn; [reflexivity|].
  destruct (isSpace c) eqn:Hc; [destruct b|]; cbn.
  - apply IH.
  - apply IH.
  - now rewrite Hc.
Qed.

Lemma replaceRuns_blank b s : trimEnd s = "" -> trimEnd (replaceRuns b s) = "".
Proof.
  revert b. induction s as [|c s IH]; intros b; cbn; [reflexivity|].
  destruct (trimEnd s) eqn:E; [|discriminate].
  destruct (isSpace c); [|discriminate]. intros _.
  destruct b; cbn; [now apply IH|]. now rewrite (IH true eq_refl).
Qed.

Lemma replaceRuns_empty b s : replaceRuns b s = "" -> trimEnd s = "".
Proof.
  revert b. induction s as [|c s IH]; intros b; cbn; [reflexivity|].
  destruct (isSpace c); [destruct b|]; try discriminate.
  intros H. now rewrite (IH true H).
Qed.

Lemma replaceRuns_trimEnd_inked b s :
  trimEnd s <> "" -> replaceRuns b (trimEnd s) <> "".
Proof.
  intros Hne H. apply replaceRuns_empty in H.
  rewrite trimEnd_idem in H. contradiction.
Qed.

Lemma trimEnd_replaceRuns b s :
  trimEnd (replaceRuns b s) = replaceRuns b (trimEnd s).
Proof.
  revert b. induction s as [|c s IH]; intros b; [reflexivity|].
  assert (Hcase : trimEnd s = "" \/ trimEnd s <> "")
    by (destruct (trimEnd s); [now left|right; discriminate]).
  destruct Hcase as [E|Hne].
  - destruct (isSpace c) eqn:Hc.
    + assert (E' : trimEnd (String c s) = "") by (cbn; now rewrite E, Hc).
      rewrite E'. now apply replaceRuns_blank.
    + assert (E' : trimEnd (String c s) = String c "")
        by (cbn; now rewrite E, Hc).
      rewrite E'. cbn [replaceRuns]. rewrite Hc. cbn [trimEnd].
      rewrite (replaceRuns_blank false s E). now rewrite Hc.
  - rewrite (trimEnd_cons c s Hne).
    cbn [replaceRuns]. destruct (isSpace c) eqn:Hc; [destruct b|].
    + apply IH.
    + rewrite trimEnd_cons; rewrite IH; [reflexivity|].
      now apply replaceRuns_trimEnd_inked.
    + rewrite trimEnd_cons; rewrite IH; [reflexivity|].
      now apply replaceRuns_trimEnd_inked.
Qed.

Lemma trim_collapseSpaces s : trim (collapseSpaces s) = collapseSpaces (trim s).
Proof.
  unfold trim, collapseSpaces.
  now rewrite trimStart_replaceRuns, trimEnd_replaceRuns.
Qed.

Lemma trimStart_allSpace s : allSpace s -> trimStart s = "".
Proof.
  unfold allSpace. induction s as [|c s IH]; cbn; [reflexivity|].
  intros H. inversion H as [|? ? Hc Hs]; subst. rewrite Hc. now apply IH.
Qed.

Lemma trimEnd_allSpace s : allSpace s -> trimEnd s = "".
Proof.
  unfold allSpace. induction s as [|c s IH]; cbn; [reflexivity|].
  intros H. inversion H as [|? ? Hc Hs]; subst.
  now rewrite (IH Hs), Hc.
Qed.

Lemma trimStart_app_space pre x : allSpace pre -> trimStart (pre ++ x) = trimStart x.
Proof.
  unfold allSpace. induction pre as [|c pre IH]; cbn; [reflexivity|].
  intros H. inversion H as [|? ? Hc Hs]; subst. rewrite Hc. now apply IH.
Qed.

Lemma trimEnd_app_space x post : allSpace post -> trimEnd (x ++ post) = trimEnd x.
Proof.
  intros Hp. induction x as [|c x IH]; cbn.
  - now apply trimEnd_allSpace.
  - now rewrite IH.
Qed.

Lemma trim_app_space pre s post :
  allSpace pre -> allSpace post -> trim (pre ++ s ++ post) = trim s.
Proof.
  intros Hpre Hpost. unfold trim. rewrite (trimStart_app_space _ _ Hpre).
  induction s as [|c s IH]; cbn.
  - now rewrite (trimStart_allSpace _ Hpost).
  - destruct (isSpace c); [exact IH|].
    change (String c (s ++ post)) with (String c s ++ post).
    now apply trimEnd_app_space.
Qed.

Lemma normalizeName_trim s : normalizeName (trim s) = normalizeName s.
Proof. unfold normalizeName. now rewrite trim_idem. Qed.

End Normalize.

(* ------------------------------------------------------------------ *)
(** *** The normal form, as the specification words it *)

Section NormalForm.
Import JsString.
Local Open Scope string_scope.

Lemma lowerChar_smallOf c : lowerChar c = smallOf c.
Proof.
  destruct c as [[] [] [] [] [] [] [] []]; reflexivity.
Qed.

Lemma isLowerOf_iff s t : isLowerOf s t <-> t = toLowerCase s.
Proof.
  unfold isLowerOf. split.
  - revert t. induction s as [|c s IH]; intros [|d t] H; cbn in H;
      inversion H; subst; cbn; [reflexivity|].
    rewrite lowerChar_smallOf. f_equal. now apply IH.
  - intros ->. induction s as [|c s IH]; cbn; constructor;
      [now rewrite lowerChar_smallOf|exact IH].
Qed.

Lemma allSpace_app a b : allSpace a -> allSpace b -> allSpace (a ++ b).
Proof.
  unfold allSpace. intros Ha Hb.
  induction a as [|c a IH]; cbn in *; [exact Hb|].
  inversion Ha; subst. constructor; auto.
Qed.

Lemma replaceRuns_skip run s :
  allSpace run -> replaceRuns true (run ++ s) = replaceRuns true s.
Proof.
  unfold allSpace. induction run as [|c run IH]; cbn; [reflexivity|].
  intros H. inversion H as [|? ? Hc Hr]; subst. rewrite Hc. now apply IH.
Qed.

(** A run of white space leaves one space, whatever its length, unless
    it continues a run. *)
Lemma replaceRuns_run b run s :
  allSpace run -> run <> "" ->
  replaceRuns b (run ++ s) =
  if b then replaceRuns true s else String " " (replaceRuns true s).
Proof.
  destruct run as [|c run]; [congruence|]. intros H _.
  unfold allSpace in H. cbn in H. inversion H as [|? ? Hc Hr]; subst.
  cbn. rewrite Hc, (replaceRuns_skip run s Hr). now destruct b.
Qed.

Lemma replaceRuns_inked b s :
  startsInked s -> replaceRuns b s = replaceRuns false s.
Proof.
  destruct s as [|c s]; cbn; [reflexivity|].
  intros H. now rewrite (H c s eq_refl).
Qed.

Lemma isCollapseOf_sound s t : isCollapseOf s t -> t = collapseSpaces s.
Proof.
  unfold collapseSpaces. induction 1 as [|c s t Hc _ IH|run s t Hn Hr Hs _ IH].
  - reflexivity.
  - cbn. rewrite Hc. now subst.
  - rewrite (replaceRuns_run false run s Hr Hn).
    rewrite (replaceRuns_inked true s Hs). now subst.
Qed.

Lemma isCollapseOf_runs s :
  isCollapseOf s (replaceRuns false s) /\
  forall run, run <> "" -> allSpace run ->
    isCollapseOf (run ++ s) (String " " (replaceRuns true s)).
Proof.
  induction s as [|c s [IH1 IH2]].
  - split; [constructor|]. intros run Hn Hr. cbn.
    apply collapse_run; trivial; [|constructor]. intros c u. discriminate.
  - cbn. destruct (isSpace c) eqn:Hc.
    + split.
      * change (String c s) with (String c "" ++ s).
        apply IH2; [discriminate|]. apply allSpace_cons; [exact Hc|].
        apply allSpace_nil.
      * intros run Hn Hr.
        change (String c s) with (String c "" ++ s).
        rewrite <- append_assoc. apply IH2.
        -- destruct run; discriminate.
        -- apply allSpace_app; [exact Hr|].
           apply allSpace_cons; [exact Hc|apply allSpace_nil].
    + assert (H1 : isCollapseOf (String c s) (String c (replaceRuns false s)))
        by now constructor.
      split; [exact H1|]. intros run Hn Hr.
      apply collapse_run; trivial.
      intros d u E. injection E as <- _. exact Hc.
Qed.

Lemma isCollapseOf_iff s t : isCollapseOf s t <-> t = collapseSpaces s.
Proof.
  split; [apply isCollapseOf_sound|].
  intros ->. apply isCollapseOf_runs.
Qed.

Lemma trimEnd_fix t :
  (forall u c, t = u ++ String c "" -> isSpace c = false) -> trimEnd t = t.
Proof.
  induction t as [|c t IH]; cbn; [reflexivity|]. intros H.
  rewrite IH.
  - destruct t as [|d t]; [|reflexivity].
    now rewrite (H "" c eq_refl).
  - intros u d E. apply (H (String c u) d). cbn. now rewrite E.
Qed.

Lemma isTrimOf_iff s t : isTrimOf s t <-> t = trim s.
Proof.
  split; [|intros ->; apply trim_isTrimOf].
  intros (pre & post & -> & Hpre & Hpost & Hhead & Hlast).
  rewrite (trim_app_space pre t post Hpre Hpost).
  unfold trim. rewrite (trimStart_fix t Hhead). symmetry.
  apply trimEnd_fix. intros u c. apply Hlast.
Qed.

(** The normal form of the specification is the one the code computes. *)
Lemma normalForm_iff n k : normalForm n k <-> k = normalizeName n.
Proof.
  unfold normalForm, normalizeName. split.
  - intros (a & b & Ha & Hb & Hk).
    apply isTrimOf_iff in Ha. apply isLowerOf_iff in Hb.
    apply isCollapseOf_iff in Hk. now subst.
  - intros ->. exists (trim n), (toLowerCase (trim n)).
    split; [now apply isTrimOf_iff|].
    split; [now apply isLowerOf_iff|now apply isCollapseOf_iff].
Qed.

Lemma sameContact_iff n1 n2 :
  sameContact n1 n2 <-> normalizeName n1 = normalizeName n2.
Proof.
  unfold sameContact. split.
  - intros (k & H1 & H2). apply normalForm_iff in H1, H2. congruence.
  - intros E. exists (normalizeName n1).
    split; apply normalForm_iff; congruence.
Qed.

Lemma caseVariant_lowerChar c d : caseVariant c d -> lowerChar c = lowerChar d.
Proof.
  unfold caseVariant, letterPairs. cbn.
  intros [->|[H|H]]; [reflexivity| |];
    repeat (destruct H as [H|H]; [injection H as <- <-; reflexivity|]);
    destruct H.
Qed.

Lemma sameUpToCase_toLowerCase s t :
  sameUpToCase s t -> toLowerCase s = toLowerCase t.
Proof.
  unfold sameUpToCase. revert t.
  induction s as [|c s IH]; intros [|d t] H; cbn in H; inversion H; subst;
    cbn; [reflexivity|].
  f_equal; [now apply caseVariant_lowerChar|now apply IH].
Qed.

(** The length of a run of white space does not show in what
    [replaceRuns] leaves of the text around it. *)
Lemma replaceRuns_run_length b a run1 run2 s :
  allSpace run1 -> run1 <> "" -> allSpace run2 -> run2 <> "" ->
  replaceRuns b (a ++ run1 ++ s) = replaceRuns b (a ++ run2 ++ s).
Proof.
  intros H1 N1 H2 N2. revert b.
  induction a as [|c a IH]; intros b; cbn.
  - now rewrite !replaceRuns_run.
  - destruct (isSpace c); [destruct b|]; now rewrite IH.
Qed.

Lemma normalizeName_collapseSpaces s :
  normalizeName (collapseSpaces s) = normalizeName s.
Proof.
  unfold normalizeName. rewrite trim_collapseSpaces.
  unfold collapseSpaces. rewrite <- replaceRuns_lower.
  apply replaceRuns_idem.
Qed.

End NormalForm.

(** A name and its normal form, from the wording of the specification
    alone. *)
Example normalForm_sample : normalForm "  Amit   KUMAR " "amit kumar".
Proof.
  exists "Amit   KUMAR"%string, "amit   kumar"%string. split; [|split].
  - exists "  "%string, " "%string. split; [reflexivity|].
    split; [repeat constructor|]. split; [repeat constructor|]. split.
    + intros c u E. now inversion E.
    + intros c u E. assert (Hc : c = "R"%char); [|now rewrite Hc].
      cbn in E.
      repeat (destruct u as [|? u]; cbn in E;
              [first [discriminate|now inversion E]
              |try discriminate; injection E as <- E]).
  - unfold isLowerOf. cbn. repeat constructor.
  - repeat (apply collapse_char; [reflexivity|]).
    apply (collapse_run "   " "kumar" "kumar").
    + discriminate.
    + repeat constructor.
    + intros c u E. now inversion E.
    + repeat (apply collapse_char; [reflexivity|]). constructor.
Qed.

(* ------------------------------------------------------------------ *)
(** *** Borrower summaries *)

(** C9.  The summaries are, up to order, the summaries of the identity
    classes, one for each class.  Two records are in one class exactly
    when their borrower names are names of one contact: the names, each
    trimmed of the white space at its ends, then made lower case, then
    with every run of white space collapsed to one space, are equal.
    The first record met of each class stands for it.  The summary of a
    class has the trimmed name of that first record, the number of
    records of the class, the sum of their principals, the sum of
    principal minus paid amount over the pending ones, and the latest
    lent date among them.  The summaries come out by non-increasing
    amount owed, and summaries that owe the same keep the order in which
    their classes were first met. *)
Theorem borrowerSummaries_by_class (rs : list LendingRecord) :
  let out := borrowerSummaries rs in
  let firsts := leaders rs in
  let expected := map (classSummary rs) firsts in
  (forall r1 r2 : LendingRecord,
     classKey r1 = classKey r2 <->
     sameContact (borrowerName r1) (borrowerName r2)) /\
  (NoDup (map classKey firsts) /\
   (forall r, In r rs -> exists l, In l firsts /\ classKey l = classKey r) /\
   (forall l, In l firsts ->
      exists p q, rs = p ++ l :: q /\ existsb (sameClass l) p = false)) /\
  (Permutation out expected /\ List.length out = List.length firsts) /\
  StronglySorted (fun a b => totalOwed a >= totalOwed b) out /\
  (forall v, filter (owes v) out = filter (owes v) expected) /\
  (forall l, In l firsts ->
     let s := classSummary rs l in
     let class := filter (fun r => String.eqb (classKey l) (classKey r)) rs in
     (forall r, In r class <->
                In r rs /\ sameContact (borrowerName l) (borrowerName r)) /\
     name s = JsString.trim (borrowerName l) /\
     recordCount s = Z.of_nat (List.length class) /\
     totalBorrowed s = sumZ (map amount class) /\
     totalOwed s =
       sumZ (map (fun r => amount r - paidAmount r) (filter isPending class)) /\
     (forall m, In m class -> lentDate m <= lastBorrowed s) /\
     (exists m, In m class /\ lentDate m = lastBorrowed s)).
Proof.
  intros out firsts expected.
  assert (Hvals : JsMap.values (summaryMap rs) = expected).
  { rewrite summaryMap_by_class. unfold JsMap.values, expected, firsts.
    rewrite map_map. reflexivity. }
  assert (Hout : out = JsArray.sort (fun a b => totalOwed b - totalOwed a) expected).
  { unfold out, borrowerSummaries. now rewrite Hvals. }
  split; [|split; [|split; [|split; [|split]]]].
  - intros r1 r2. unfold classKey. symmetry. apply sameContact_iff.
  - split; [apply leadersFrom_NoDup|]. split.
    + intros r Hr. apply (leadersFrom_covers [] rs r Hr). intros [].
    + intros l Hl. exact (leadersFrom_first [] rs l Hl).
  - assert (Hp : Permutation out expected)
      by (rewrite Hout; apply sort_Permutation).
    split; [exact Hp|].
    rewrite (Permutation_length Hp). unfold expected. apply length_map.
  - rewrite Hout. apply sort_sorted.
  - intros v. rewrite Hout. apply sort_owes.
  - intros l Hl s class. split.
    { intros r. unfold class. rewrite filter_In, String.eqb_eq.
      unfold classKey. now rewrite sameContact_iff. }
    change class with (members rs l). unfold s, classSummary.
    cbn [name totalOwed totalBorrowed recordCount lastBorrowed].
    repeat split.
    + intros m Hm.
      now apply (proj2 (proj1 (maxDate_bounds (lentDate l) (members rs l)))).
    + destruct (proj2 (maxDate_bounds (lentDate l) (members rs l)))
        as [E|H]; [|exact H].
      exists l. split; [|now rewrite E].
      unfold members. apply filter_In. split.
      * now apply leadersFrom_In in Hl.
      * unfold sameClass. apply String.eqb_refl.
Qed.

(** Scenario E of the specification: "Amit", then "amit ". *)
Example scenario_E :
  borrowerSummaries [amitAgain; amit] = [mkSummary "amit" 150 150 2 day2].
Proof. reflexivity. Qed.

(** Two classes, Rahul owing 300 and Amit owing 150 over two records. *)
Lemma borrowerSummaries_by_class_witness :
  Permutation
    (borrowerSummaries [amitAgain; rahulPartly; amit])
    (map (classSummary [amitAgain; rahulPartly; amit])
         (leaders [amitAgain; rahulPartly; amit])) /\
  List.length (borrowerSummaries [amitAgain; rahulPartly; amit]) = 2%nat /\
  map totalOwed (borrowerSummaries [amitAgain; rahulPartly; amit]) = [300; 150].
Proof.
  destruct (borrowerSummaries_by_class [amitAgain; rahulPartly; amit])
    as (_ & _ & (Hp & Hlen) & _).
  split; [exact Hp|]. split; [exact Hlen|reflexivity].
Defined.

(* ================================================================== *)
(** ** Further properties of the store *)

Lemma find_none_absent recordId rs :
  find (fun r => String.eqb (id r) recordId) rs = None ->
  forall r, In r rs -> String.eqb (id r) recordId = false.
Proof.
  intros H r Hr. exact (find_none _ _ H r Hr).
Qed.

(** What a payment by id does to the record list: nothing; or the render
    of the dialog on the record found, and then perhaps the validated
    payment on the records of that id. *)
Lemma ApplyPayment_shape clk recordId amt paymentNotes st :
  let rs' := records (fst (ApplyPayment clk recordId amt paymentNotes st)) in
  rs' = records st \/
  exists record,
    find (fun r => String.eqb (id r) recordId) (records st) = Some record /\
    let shown := sortHistoryOf record (records st) in
    (rs' = shown \/
     (0 < amt <= remaining record /\
      exists n,
        rs' = map (fun r => if String.eqb (id r) recordId
                            then payRecord clk amt n r else r) shown)).
Proof.
  cbn zeta. unfold ApplyPayment.
  destruct (find _ (records st)) as [record|] eqn:E.
  - pose proof (find_some _ _ E) as [_ Hid]. apply String.eqb_eq in Hid.
    right. exists record. split; [reflexivity|].
    destruct (ApplyPaymentTo_cases clk record amt paymentNotes st)
      as [(_ & Hr & _)|[(_ & _ & Hr & _)|(Hok & _ & Hr)]]; auto.
    right. split; [exact Hok|]. eexists. rewrite Hid in Hr. exact Hr.
  - left. rewrite records_handlePartialPayment. apply map_if_absent.
    now apply find_none_absent.
Qed.

Lemma Forall2_map_r {A} (Q R : A -> A -> Prop) (g : A -> A) l1 l2 :
  (forall a b, Q a b -> R a (g b)) ->
  Forall2 Q l1 l2 -> Forall2 R l1 (map g l2).
Proof. intros Hg H. induction H; cbn; constructor; auto. Qed.

(** A relation between the records of before and of after that holds
    through the render and through a payment holds through a payment by
    id. *)
Lemma ApplyPayment_Forall2 (R : LendingRecord -> LendingRecord -> Prop)
    clk recordId amt paymentNotes st :
  (forall r, R r r) ->
  (forall r, R r (withSortedHistory r)) ->
  (forall a b n, 0 < amt -> R a b -> R a (payRecord clk amt n b)) ->
  Forall2 R (records st)
          (records (fst (ApplyPayment clk recordId amt paymentNotes st))).
Proof.
  intros Hrefl Hsort Hpay.
  destruct (ApplyPayment_shape clk recordId amt paymentNotes st)
    as [E|(record & _ & [E|(Hamt & n & E)])]; rewrite E.
  - clear E. induction (records st); constructor; auto.
  - now apply sortHistoryOf_Forall2.
  - apply (Forall2_map_r R).
    + intros a b Hab. destruct (String.eqb (id b) recordId); trivial.
      apply Hpay; [lia|exact Hab].
    + now apply sortHistoryOf_Forall2.
Qed.

(** A property of records that holds through the render and through a
    payment holds through a payment by id. *)
Lemma ApplyPayment_Forall (P : LendingRecord -> Prop)
    clk recordId amt paymentNotes st :
  (forall r, P r -> P (withSortedHistory r)) ->
  (forall r n, P r -> P (payRecord clk amt n r)) ->
  Forall P (records st) ->
  Forall P (records (fst (ApplyPayment clk recordId amt paymentNotes st))).
Proof.
  intros Hsort Hpay H.
  destruct (ApplyPayment_shape clk recordId amt paymentNotes st)
    as [E|(record & _ & [E|(Hamt & n & E)])]; rewrite E; trivial.
  - now apply sortHistoryOf_Forall.
  - apply Forall_map_if; [intros a; apply Hpay|].
    now apply sortHistoryOf_Forall.
Qed.

Lemma Forall2_map_if {A} (R : A -> A -> Prop) (p : A -> bool) (f : A -> A) l :
  (forall a, R a a) -> (forall a, R a (f a)) ->
  Forall2 R l (map (fun a => if p a then f a else a) l).
Proof.
  intros Hr Hf. induction l as [|a l IH]; cbn; constructor; trivial.
  destruct (p a); auto.
Qed.

Lemma Forall2_refl {A} (R : A -> A -> Prop) l :
  (forall a, R a a) -> Forall2 R l l.
Proof. intros Hr. induction l; constructor; auto. Qed.

Lemma sameLoan_refl r : sameLoan r r.
Proof. repeat split. Qed.

Lemma totalLent_sameLoan rs rs' :
  Forall2 sameLoan rs rs' -> totalLent rs' = totalLent rs.
Proof.
  intros H. unfold totalLent. rewrite !reduce_sum. f_equal.
  induction H as [|r r' rs rs' Hr _ IH]; cbn; [reflexivity|].
  destruct Hr as (_ & _ & -> & _). unfold sumZ in *. cbn beta in IH.
  now rewrite IH.
Qed.

(** A payment and a mark-paid never add, drop or reorder records, and
    never touch the id, the borrower, the principal, the reason, the lent
    date, the notes or the creation time of any record; the total lent is
    therefore the same after as before. *)
Theorem payments_keep_the_loans clk st recordId amt paymentNotes :
  let paidSt := fst (ApplyPayment clk recordId amt paymentNotes st) in
  let markedSt := fst (MarkFullyPaid recordId st) in
  Forall2 sameLoan (records st) (records paidSt) /\
  Forall2 sameLoan (records st) (records markedSt) /\
  totalLent (records paidSt) = totalLent (records st) /\
  totalLent (records markedSt) = totalLent (records st).
Proof.
  intros paidSt markedSt.
  assert (H1 : Forall2 sameLoan (records st) (records paidSt)).
  { unfold paidSt. apply ApplyPayment_Forall2.
    - apply sameLoan_refl.
    - intros r. repeat split.
    - intros a b n _ Hab. exact Hab. }
  assert (H2 : Forall2 sameLoan (records st) (records markedSt)).
  { unfold markedSt, MarkFullyPaid. rewrite records_markAsPaid.
    apply Forall2_map_if; intros a; [apply sameLoan_refl|repeat split]. }
  repeat split; trivial; now apply totalLent_sameLoan.
Qed.

Lemma paidOn_refl r : paidOn r r.
Proof.
  split; [lia|]. exists (paymentHistory r), [].
  rewrite app_nil_r. repeat split; trivial. cbn. lia.
Qed.

(** A payment never lowers the paid amount of a record and never loses or
    rewrites an entry of its history: the entries of before are all there
    afterwards, possibly in another order (the dialog arranges those of
    the record it is opened on latest first), and the one new entry, if
    any, comes after them. *)
Theorem ApplyPayment_only_adds clk st recordId amt paymentNotes :
  Forall2 paidOn (records st)
          (records (fst (ApplyPayment clk recordId amt paymentNotes st))).
Proof.
  destruct (ApplyPayment_shape clk recordId amt paymentNotes st)
    as [E|(record & _ & [E|(Hamt & n & E)])]; rewrite E.
  - apply Forall2_refl, paidOn_refl.
  - apply sortHistoryOf_Forall2; [apply paidOn_refl|].
    intros r. split; [cbn; lia|].
    exists (paymentHistory (withSortedHistory r)), [].
    rewrite app_nil_r. repeat split; [apply withSortedHistory_entries|].
    cbn. lia.
  - apply (Forall2_map_r
             (fun a b => paidAmount b = paidAmount a /\
                         Permutation (paymentHistory b) (paymentHistory a))).
    + intros a b [Ep Hp].
      destruct (String.eqb (id b) recordId).
      * split; [cbn; lia|].
        eexists (paymentHistory b), [_]. repeat split; trivial.
      * split; [lia|]. exists (paymentHistory b), [].
        rewrite app_nil_r. repeat split; trivial. cbn. lia.
    + apply sortHistoryOf_Forall2.
      * intros r. split; reflexivity.
      * intros r. split; [reflexivity|apply withSortedHistory_entries].
Qed.

(* ------------------------------------------------------------------ *)
(** *** Status against paid amount *)

Lemma payRecord_statusMatches clk amt n r : statusMatches (payRecord clk amt n r).
Proof.
  unfold statusMatches. cbn.
  destruct (Z.geb_spec (paidAmount r + amt) (amount r)); split;
    intros; try reflexivity; try discriminate; lia.
Qed.

Lemma perform_statusMatches op st :
  isMarkFree op = true ->
  Forall (fun r => 0 < amount r -> statusMatches r) (records st) ->
  Forall (fun r => 0 < amount r -> statusMatches r)
         (records (fst (perform op st))).
Proof.
  intros Hop H. destruct op as [clk fd|clk rid amt n|rid|rid];
    cbn [perform]; try discriminate.
  - unfold Add, AddRecordForm_handleSubmit.
    destruct (_ || _); [exact H|].
    destruct (records_handleAddRecord clk st fd)
      as (r & -> & _ & _ & _ & _ & Hs & Hp & _).
    constructor; [|exact H].
    intros Hpos. unfold statusMatches. rewrite Hs, Hp.
    split; [discriminate|lia].
  - apply ApplyPayment_Forall; [|intros r n' _ _|exact H].
    + intros r Hr. exact Hr.
    + apply payRecord_statusMatches.
  - unfold Delete. rewrite records_deleteRecord.
    now apply Forall_filter_keep.
Qed.

(** Along any sequence of Add, ApplyPayment and Delete from the empty
    store, a record of positive principal is paid exactly when its paid
    amount has reached the principal. *)
Theorem status_follows_paidAmount (ops : list Op) :
  forallb isMarkFree ops = true ->
  Forall (fun r => 0 < amount r ->
                   (status r = paid <-> amount r <= paidAmount r))
         (records (run ops initialApp)).
Proof.
  assert (G : forall st,
             forallb isMarkFree ops = true ->
             Forall (fun r => 0 < amount r -> statusMatches r) (records st) ->
             Forall (fun r => 0 < amount r -> statusMatches r)
                    (records (run ops st))).
  { unfold run. induction ops as [|op ops IH]; intros st Hops H; cbn;
      [exact H|].
    cbn in Hops. apply andb_prop in Hops. destruct Hops as [Hop Hops].
    apply IH; [exact Hops|]. now apply perform_statusMatches. }
  intros Hops. apply (G initialApp Hops). constructor.
Qed.

Lemma status_follows_paidAmount_witness :
  Forall (fun r => 0 < amount r ->
                   (status r = paid <-> amount r <= paidAmount r))
         (records (run [OpAdd clock1 formRahul;
                        OpApplyPayment clock2 "1700000001000" 200 "";
                        OpDelete "7";
                        OpApplyPayment clock3 "1700000001000" 300 ""]
                       initialApp)).
Proof.
  apply status_follows_paidAmount. reflexivity.
Defined.

(* ------------------------------------------------------------------ *)
(** *** Distinct ids and the bound on the paid amount *)

Lemma ids_map_if (p : LendingRecord -> bool) (f : LendingRecord -> LendingRecord) rs :
  (forall r, id (f r) = id r) ->
  ids (map (fun r => if p r then f r else r) rs) = ids rs.
Proof.
  intros Hf. unfold ids. rewrite map_map. apply map_ext.
  intros r. destruct (p r); [apply Hf|reflexivity].
Qed.

Lemma ids_filter_otherThan recordId rs :
  ids (filter (otherThan recordId) rs) =
  filter (fun i => negb (String.eqb i recordId)) (ids rs).
Proof.
  unfold ids, otherThan. induction rs as [|r rs IH]; cbn; [reflexivity|].
  destruct (String.eqb (id r) recordId); cbn; now rewrite IH.
Qed.

Lemma NoDup_filter_keep {A} (p : A -> bool) l : NoDup l -> NoDup (filter p l).
Proof.
  induction 1 as [|a l Ha _ IH]; cbn; [constructor|].
  destruct (p a); [|exact IH].
  constructor; [|exact IH]. intros H. apply filter_In in H. tauto.
Qed.

Lemma NoDup_ids_inj rs r r0 :
  NoDup (ids rs) -> In r rs -> In r0 rs -> id r = id r0 -> r = r0.
Proof.
  unfold ids. induction rs as [|a rs IH]; intros Hnd Hr Hr0 E; [destruct Hr|].
  inversion Hnd as [|? ? Hna Hnd']; subst.
  destruct Hr as [->|Hr], Hr0 as [->|Hr0]; trivial.
  - exfalso. apply Hna. rewrite E. now apply in_map.
  - exfalso. apply Hna. rewrite <- E. now apply in_map.
  - now apply IH.
Qed.

(** Every operation but Add keeps the ids, or drops some. *)
Lemma perform_ids op st :
  (forall clk fd, op <> OpAdd clk fd) ->
  exists p, ids (records (fst (perform op st))) = filter p (ids (records st)).
Proof.
  intros Hop. destruct op as [clk fd|clk rid amt n|rid|rid]; cbn [perform].
  - now destruct (Hop clk fd).
  - exists (fun _ => true).
    rewrite (filter_all (fun _ => true)) by reflexivity.
    destruct (ApplyPayment_shape clk rid amt n st)
      as [E|(record & _ & [E|(_ & n' & E)])]; rewrite E; [reflexivity| |].
    + apply sortHistoryOf_ids.
    + rewrite ids_map_if by reflexivity. apply sortHistoryOf_ids.
  - exists (fun _ => true).
    rewrite (filter_all (fun _ => true)) by reflexivity.
    unfold MarkFullyPaid. rewrite records_markAsPaid. now apply ids_map_if.
  - eexists. unfold Delete. rewrite records_deleteRecord.
    apply ids_filter_otherThan.
Qed.

Lemma payRecord_withinPrincipal clk amt n r :
  0 < amt <= remaining r -> withinPrincipal r ->
  withinPrincipal (payRecord clk amt n r).
Proof. unfold withinPrincipal, remaining. cbn. lia. Qed.

(** With distinct ids, every operation keeps the paid amounts within the
    principals. *)
Lemma perform_withinPrincipal op st :
  NoDup (ids (records st)) ->
  Forall withinPrincipal (records st) ->
  Forall withinPrincipal (records (fst (perform op st))).
Proof.
  intros Hnd H. destruct op as [clk fd|clk rid amt n|rid|rid]; cbn [perform].
  - unfold Add, AddRecordForm_handleSubmit.
    destruct (_ || _); [exact H|].
    destruct (records_handleAddRecord clk st fd)
      as (r & -> & _ & _ & _ & _ & _ & Hp & _).
    constructor; [|exact H]. unfold withinPrincipal. rewrite Hp. lia.
  - destruct (ApplyPayment_shape clk rid amt n st)
      as [E|(record & Hf & Hcase)]; [now rewrite E|].
    cbn zeta in Hcase.
    assert (Hs : Forall withinPrincipal (sortHistoryOf record (records st)))
      by (apply sortHistoryOf_Forall; [intros r Hr; exact Hr|exact H]).
    destruct Hcase as [E|(Hamt & n' & E)]; rewrite E; trivial.
    pose proof (sortHistoryOf_found _ _ _ Hf) as Hf'.
    apply find_some in Hf'. destruct Hf' as [Hin Hid].
    apply String.eqb_eq in Hid.
    assert (Hnd' : NoDup (ids (sortHistoryOf record (records st))))
      by now rewrite sortHistoryOf_ids.
    rewrite Forall_forall in *. intros x Hx.
    apply in_map_iff in Hx. destruct Hx as (r & <- & Hr).
    destruct (String.eqb_spec (id r) rid) as [Er|Er]; [|now apply Hs].
    assert (r = withSortedHistory record)
      by (apply (NoDup_ids_inj _ _ _ Hnd' Hr Hin); congruence).
    subst r. apply payRecord_withinPrincipal; auto.
  - unfold MarkFullyPaid. rewrite records_markAsPaid.
    apply Forall_map_if; [|exact H]. intros a Ha. exact Ha.
  - unfold Delete. rewrite records_deleteRecord.
    now apply Forall_filter_keep.
Qed.

Lemma run_storeInvariant ops st :
  StronglySorted Z.lt (addClocks ops) ->
  storeInvariant (addClocks ops) st ->
  storeInvariant [] (run ops st).
Proof.
  revert st. unfold run.
  induction ops as [|op ops IH]; intros st Hs Hinv; cbn; [exact Hinv|].
  apply IH.
  { destruct op; cbn in Hs; trivial. now inversion Hs. }
  destruct Hinv as (Hnd & Hiss & Hwp).
  assert (Hwp' := perform_withinPrincipal op st Hnd Hwp).
  destruct op as [clk fd|clk rid amt n|rid|rid].
  - cbn [addClocks flat_map app] in *.
    inversion Hs as [|? ? Hs' Hlt]; subst.
    cbn [perform] in *. unfold Add, AddRecordForm_handleSubmit in *.
    destruct (_ || _).
    + cbn [fst toast]. repeat split; trivial.
      intros i Hi. destruct (Hiss i Hi) as (t & Ei & Ht).
      exists t. split; [exact Ei|now inversion Ht].
    + destruct (records_handleAddRecord clk st fd)
        as (r & Er & _ & Hid & _).
      unfold storeInvariant. rewrite Er in *. repeat split; trivial.
      * cbn. constructor; [|exact Hnd].
        intros Hin. destruct (Hiss _ Hin) as (t & Ei & Ht).
        rewrite Hid in Ei. apply toString_inj in Ei.
        inversion Ht; subst. lia.
      * intros i [Hi|Hi].
        -- exists (Date_now clk). split; [|exact Hlt].
           rewrite <- Hi. exact Hid.
        -- destruct (Hiss i Hi) as (t & Ei & Ht).
           exists t. split; [exact Ei|now inversion Ht].
  - destruct (perform_ids (OpApplyPayment clk rid amt n) st) as [p Ep];
      [discriminate|].
    repeat split; trivial; rewrite Ep.
    + now apply NoDup_filter_keep.
    + intros i Hi. apply filter_In in Hi. now apply Hiss.
  - destruct (perform_ids (OpMarkFullyPaid rid) st) as [p Ep];
      [discriminate|].
    repeat split; trivial; rewrite Ep.
    + now apply NoDup_filter_keep.
    + intros i Hi. apply filter_In in Hi. now apply Hiss.
  - destruct (perform_ids (OpDelete rid) st) as [p Ep]; [discriminate|].
    repeat split; trivial; rewrite Ep.
    + now apply NoDup_filter_keep.
    + intros i Hi. apply filter_In in Hi. now apply Hiss.
Qed.

Lemma initial_storeInvariant later : storeInvariant later initialApp.
Proof. repeat split; cbn; try constructor. intros i []. Qed.

(** When the Adds of a sequence read strictly increasing values of
    [Date.now()], the records of the store reached from the empty store
    have pairwise distinct ids, whatever else the sequence does. *)
Theorem ids_distinct_under_advancing_clock (ops : list Op) :
  StronglySorted Z.lt (addClocks ops) ->
  NoDup (ids (records (run ops initialApp))).
Proof.
  intros Hs.
  exact (proj1 (run_storeInvariant ops initialApp Hs
                  (initial_storeInvariant _))).
Qed.

Lemma ids_distinct_under_advancing_clock_witness :
  NoDup (ids (records (run [OpAdd clock1 formRahul;
                            OpApplyPayment clock2 "1700000001000" 200 "";
                            OpAdd clock3 formNegative]
                           initialApp))).
Proof.
  apply ids_distinct_under_advancing_clock.
  cbn. repeat constructor.
Defined.

(** Under the same condition on the clock no record is ever overpaid:
    after any sequence of operations from the empty store the paid amount
    of every record is at least 0 and at most its principal (and stays 0
    for a principal that is not positive). *)
Theorem never_overpaid (ops : list Op) :
  StronglySorted Z.lt (addClocks ops) ->
  Forall (fun r => 0 <= paidAmount r <= Z.max 0 (amount r))
         (records (run ops initialApp)).
Proof.
  intros Hs.
  exact (proj2 (proj2 (run_storeInvariant ops initialApp Hs
                         (initial_storeInvariant _)))).
Qed.

Lemma never_overpaid_witness :
  Forall (fun r => 0 <= paidAmount r <= Z.max 0 (amount r))
         (records (run [OpAdd clock1 formRahul;
                        OpApplyPayment clock2 "1700000001000" 200 "";
                        OpMarkFullyPaid "1700000001000";
                        OpApplyPayment clock3 "1700000001000" 300 ""]
                       initialApp)).
Proof.
  apply never_overpaid. cbn. repeat constructor.
Defined.

(* ------------------------------------------------------------------ *)
(** *** Deleting *)

(** After a Delete no record of the store carries the deleted id, the
    other records are all there, and a second Delete of the same id
    changes nothing. *)
Theorem Delete_removes_the_id st recordId :
  let st' := fst (Delete recordId st) in
  ~ In recordId (ids (records st')) /\
  (forall r, In r (records st') <-> In r (records st) /\ id r <> recordId) /\
  records (fst (Delete recordId st')) = records st'.
Proof.
  intros st'. unfold st', Delete. rewrite !records_deleteRecord.
  assert (Hin : forall r, In r (filter (otherThan recordId) (records st)) <->
                          In r (records st) /\ id r <> recordId).
  { intros r. rewrite filter_In. unfold otherThan.
    destruct (String.eqb_spec (id r) recordId); cbn; intuition congruence. }
  repeat split.
  - unfold ids. intros H. apply in_map_iff in H. destruct H as (r & E & Hr).
    apply Hin in Hr. tauto.
  - now apply Hin.
  - now apply Hin.
  - intros [H1 H2]. apply Hin. tauto.
  - apply filter_all. intros a Ha. apply filter_In in Ha. tauto.
Qed.

(** Deleting the id that an Add has just issued undoes the Add, provided
    that id was not in the store before. *)
Theorem Delete_undoes_Add clk formData st :
  ~ In (JsString.toString (Date_now clk)) (ids (records st)) ->
  records (fst (Delete (JsString.toString (Date_now clk))
                       (fst (Add clk formData st)))) = records st.
Proof.
  intros Hfresh. unfold Delete. rewrite records_deleteRecord.
  unfold Add, AddRecordForm_handleSubmit.
  destruct (_ || _).
  - cbn [fst toast]. apply filter_all. intros a Ha. unfold otherThan.
    now rewrite (absent_id_eqb _ _ Hfresh a Ha).
  - destruct (records_handleAddRecord clk st formData)
      as (r & -> & _ & Hid & _).
    cbn [filter]. unfold otherThan at 1. rewrite Hid, String.eqb_refl. cbn.
    apply filter_all. intros a Ha. unfold otherThan.
    now rewrite (absent_id_eqb _ _ Hfresh a Ha).
Qed.

Lemma Delete_undoes_Add_witness :
  records (fst (Delete "1700000003000" (fst (Add clock3 formRahul storeB))))
  = records storeB.
Proof.
  apply (Delete_undoes_Add clock3 formRahul storeB).
  cbn. intros [H|[H|[]]]; discriminate H.
Defined.

(* ------------------------------------------------------------------ *)
(** *** What the payment toast says *)

(** An accepted payment is the handler run under the dialog. *)
Lemma find_map_if {A} (p : A -> bool) (f : A -> A) l :
  (forall a, p a = true -> p (f a) = true) ->
  find p (map (fun a => if p a then f a else a) l) = option_map f (find p l).
Proof.
  intros Hp. induction l as [|a l IH]; cbn; [reflexivity|].
  destruct (p a) eqn:E.
  - now rewrite (Hp a E).
  - now rewrite E.
Qed.

(** The toast of an accepted payment tells the state the record is left
    in: "Fully Paid" exactly when the record comes out paid with nothing
    remaining, and otherwise "Partial Payment Received" with the amount
    paid and the balance that remains on the record. *)
Theorem payment_toast_matches_record clk st recordId record amt paymentNotes :
  find (fun r => String.eqb (id r) recordId) (records st) = Some record ->
  0 < amt <= remaining record ->
  let out := ApplyPayment clk recordId amt paymentNotes st in
  exists record',
    find (fun r => String.eqb (id r) recordId) (records (fst out))
      = Some record' /\
    ((snd out = [FullyPaid (borrowerName record')] /\
      status record' = paid /\ remaining record' = 0)
     \/
     (snd out = [PartialPaymentReceived (borrowerName record') amt
                                        (remaining record')] /\
      status record' = pending /\ 0 < remaining record')).
Proof.
  intros Hf Hamt out.
  set (n := if JsString.truthy paymentNotes then Some paymentNotes else None).
  assert (Hout : out = handlePartialPayment clk recordId amt n
                         (dialogOn record st)).
  { unfold out, ApplyPayment. rewrite Hf.
    pose proof (find_some _ _ Hf) as [_ Hid]. apply String.eqb_eq in Hid.
    rewrite (ApplyPaymentTo_accepted _ _ _ _ _ Hamt), Hid. reflexivity. }
  pose proof (sortHistoryOf_found _ _ _ Hf) as Hf'.
  exists (payRecord clk amt n (withSortedHistory record)). split.
  - rewrite Hout, records_handlePartialPayment.
    change (records (dialogOn record st))
      with (sortHistoryOf record (records st)).
    rewrite (find_map_if (fun r => String.eqb (id r) recordId)); [|auto].
    rewrite Hf'. reflexivity.
  - rewrite Hout. unfold handlePartialPayment.
    change (records (dialogOn record st))
      with (sortHistoryOf record (records st)).
    rewrite Hf'. unfold remaining in *. cbn.
    destruct (Z.leb_spec (amount record - (paidAmount record + amt)) 0).
    + left. cbn. repeat split; try lia.
      destruct (Z.geb_spec (paidAmount record + amt) (amount record));
        [reflexivity|lia].
    + right. cbn. repeat split; try lia.
      destruct (Z.geb_spec (paidAmount record + amt) (amount record));
        [lia|reflexivity].
Qed.

Lemma payment_toast_matches_record_witness :
  exists record',
    find (fun r => String.eqb (id r) "1700000001000")
         (records (fst (ApplyPayment clock3 "1700000001000" 300 "" storeB)))
      = Some record' /\
    (remaining record' = 0 \/ 0 < remaining record').
Proof.
  assert (Hf : find (fun r => String.eqb (id r) "1700000001000")
                    (records storeB) = Some rahulPartly) by reflexivity.
  assert (Ha : 0 < 300 <= remaining rahulPartly)
    by (unfold remaining; cbn; lia).
  destruct (payment_toast_matches_record clock3 storeB "1700000001000"
              rahulPartly 300 "" Hf Ha)
    as (r' & H1 & [(_ & _ & H2)|(_ & _ & H3)]);
    exists r'; (split; [exact H1|]); [now left|now right].
Defined.

(* ------------------------------------------------------------------ *)
(** *** How the totals move *)

Lemma totals_as_sums rs :
  totalLent rs = sumZ (map amount rs) /\
  totalPending rs = sumZ (map remaining (filter isPending rs)) /\
  totalPaid rs = sumZ (map amount (filter isPaid rs)).
Proof.
  unfold totalLent, totalPending, totalPaid. rewrite !reduce_sum.
  repeat split; apply Z.add_0_l.
Qed.

Lemma isPending_isPaid r : isPaid r = negb (isPending r).
Proof. unfold isPaid, isPending. now destruct (status r). Qed.

(** Every rupee lent is pending, or returned, or already paid back on a
    loan that is still pending: the total lent is the total pending plus
    the total returned plus the paid amounts of the pending records. *)
Theorem totals_account_for_all_lent (rs : list LendingRecord) :
  totalLent rs =
  totalPending rs + totalPaid rs
  + sumZ (map paidAmount (filter (fun r => Status_eqb (status r) pending) rs)).
Proof.
  destruct (totals_as_sums rs) as (-> & -> & ->).
  fold isPending. unfold sumZ, remaining.
  induction rs as [|r rs IH]; cbn; [reflexivity|].
  rewrite isPending_isPaid. destruct (isPending r); cbn; lia.
Qed.

Lemma split_at_id rs recordId record :
  NoDup (ids rs) ->
  find (fun r => String.eqb (id r) recordId) rs = Some record ->
  exists p q,
    rs = p ++ record :: q /\
    (forall r, In r p -> String.eqb (id r) recordId = false) /\
    (forall r, In r q -> String.eqb (id r) recordId = false).
Proof.
  unfold ids. induction rs as [|a rs IH]; intros Hnd Hf; cbn in *;
    [discriminate|].
  inversion Hnd as [|? ? Hna Hnd']; subst.
  destruct (String.eqb_spec (id a) recordId) as [E|E].
  - injection Hf as ->. exists [], rs. repeat split; [intros r []|].
    intros r Hr. apply String.eqb_neq. intros Er. apply Hna.
    rewrite E, <- Er. now apply in_map.
  - destruct (IH Hnd' Hf) as (p & q & -> & Hp & Hq).
    exists (a :: p), q. repeat split; trivial.
    intros r [<-|Hr]; [now apply String.eqb_neq|now apply Hp].
Qed.

Lemma update_at_id rs recordId record (f : LendingRecord -> LendingRecord) :
  NoDup (ids rs) ->
  find (fun r => String.eqb (id r) recordId) rs = Some record ->
  exists p q,
    rs = p ++ record :: q /\
    map (fun r => if String.eqb (id r) recordId then f r else r) rs
    = p ++ f record :: q.
Proof.
  intros Hnd Hf. pose proof (find_some _ _ Hf) as [_ Hid].
  destruct (split_at_id _ _ _ Hnd Hf) as (p & q & -> & Hp & Hq).
  exists p, q. split; [reflexivity|].
  rewrite map_app. cbn [map]. rewrite Hid.
  now rewrite (map_if_absent _ _ p Hp), (map_if_absent _ _ q Hq).
Qed.

Lemma totals_around p x q :
  totalPending (p ++ x :: q) =
    totalPending p + (if isPending x then remaining x else 0) + totalPending q
  /\
  totalPaid (p ++ x :: q) =
    totalPaid p + (if isPaid x then amount x else 0) + totalPaid q.
Proof.
  destruct (totals_as_sums (p ++ x :: q)) as (_ & -> & ->).
  destruct (totals_as_sums p) as (_ & -> & ->).
  destruct (totals_as_sums q) as (_ & -> & ->).
  rewrite !filter_app, !map_app, !sumZ_app. cbn [filter].
  split; [destruct (isPending x)|destruct (isPaid x)];
    unfold sumZ; cbn; lia.
Qed.

(** With distinct ids, an accepted payment of [amt] on a pending record
    lowers the total pending by exactly [amt]; the total returned grows
    by the whole principal of the record when the payment settles it, and
    stays as it was otherwise. *)
Theorem payment_moves_totals clk st recordId record amt paymentNotes :
  NoDup (ids (records st)) ->
  find (fun r => String.eqb (id r) recordId) (records st) = Some record ->
  status record = pending ->
  0 < amt <= remaining record ->
  let rs' := records (fst (ApplyPayment clk recordId amt paymentNotes st)) in
  totalPending rs' = totalPending (records st) - amt /\
  totalPaid rs' =
    totalPaid (records st)
    + (if amt =? remaining record then amount record else 0).
Proof.
  intros Hnd Hf Hst Hamt rs'.
  set (n := if JsString.truthy paymentNotes then Some paymentNotes else None).
  pose proof (find_some _ _ Hf) as [_ Hid]. apply String.eqb_eq in Hid.
  assert (E : rs' = map (fun r => if String.eqb (id r) recordId
                                  then payRecord clk amt n r else r)
                        (sortHistoryOf record (records st))).
  { unfold rs', ApplyPayment. rewrite Hf.
    rewrite (ApplyPaymentTo_accepted _ _ _ _ _ Hamt), Hid.
    now rewrite records_handlePartialPayment. }
  destruct (split_at_id _ _ _ Hnd Hf) as (p & q & Ers & Hp & Hq).
  rewrite E, Ers, sortHistoryOf_at by (rewrite Hid; exact Hp).
  rewrite map_app. cbn [map].
  rewrite (map_if_absent _ _ p Hp), (map_if_absent _ _ q Hq).
  change (id (withSortedHistory record)) with (id record).
  rewrite Hid, String.eqb_refl.
  destruct (totals_around p record q) as [-> ->].
  destruct (totals_around p (payRecord clk amt n (withSortedHistory record)) q)
    as [-> ->].
  unfold isPending, isPaid, remaining in *. rewrite Hst. cbn.
  destruct (Z.geb_spec (paidAmount record + amt) (amount record));
    destruct (Z.eqb_spec amt (amount record - paidAmount record));
    cbn; split; lia.
Qed.

Lemma storeB_ids_distinct : NoDup (ids (records storeB)).
Proof.
  cbn. constructor; [intros [H|[]]; discriminate H|].
  constructor; [intros []|constructor].
Qed.

Lemma payment_moves_totals_witness :
  totalPending (records (fst (ApplyPayment clock3 "1700000001000" 300 "" storeB)))
  = totalPending (records storeB) - 300.
Proof.
  refine (proj1 (payment_moves_totals clock3 storeB "1700000001000"
                   rahulPartly 300 "" _ _ _ _)).
  - exact storeB_ids_distinct.
  - reflexivity.
  - reflexivity.
  - unfold remaining. cbn. lia.
Defined.

(** With distinct ids, marking a pending record fully paid takes its
    remaining balance out of the total pending and puts its whole
    principal into the total returned, whatever has been paid on it. *)
Theorem markPaid_moves_totals st recordId record :
  NoDup (ids (records st)) ->
  find (fun r => String.eqb (id r) recordId) (records st) = Some record ->
  status record = pending ->
  let rs' := records (fst (MarkFullyPaid recordId st)) in
  totalPending rs' = totalPending (records st) - remaining record /\
  totalPaid rs' = totalPaid (records st) + amount record.
Proof.
  intros Hnd Hf Hst rs'. unfold rs', MarkFullyPaid.
  rewrite records_markAsPaid.
  destruct (update_at_id _ _ _ (fun r => withStatus r paid) Hnd Hf)
    as (p & q & Ers & Emap).
  rewrite Emap, Ers.
  destruct (totals_around p record q) as [-> ->].
  destruct (totals_around p (withStatus record paid) q) as [-> ->].
  unfold isPending, isPaid, remaining. rewrite Hst. cbn. split; lia.
Qed.

Lemma markPaid_moves_totals_witness :
  totalPaid (records (fst (MarkFullyPaid "1700000001000" storeB)))
  = totalPaid (records storeB) + 500.
Proof.
  refine (proj2 (markPaid_moves_totals storeB "1700000001000"
                   rahulPartly _ _ _)).
  - exact storeB_ids_distinct.
  - reflexivity.
  - reflexivity.
Defined.

(* ================================================================== *)
(** ** The payment form: quick amounts *)

Lemma quickAmounts_cases record :
  let rem := remaining record in
  quickAmounts record =
  if rem <=? 0 then []
  else if rem <=? 50 then [rem]
  else if rem <=? 100 then [50; rem]
  else if rem <=? 500 then [50; 100; rem]
  else [50; 100; 500; rem].
Proof.
  unfold quickAmounts, remaining, JsIndexed.filterIndexed, JsIndexed.indexOf.
  set (rem := amount record - paidAmount record). cbn zeta.
  destruct (Z.leb_spec rem 0);
    [|destruct (Z.leb_spec rem 50);
      [|destruct (Z.leb_spec rem 100); [|destruct (Z.leb_spec rem 500)]]];
    repeat match goal with
           | |- context [Z.min ?a rem] =>
               first [rewrite (Z.min_l a rem) by lia
                     |rewrite (Z.min_r a rem) by lia]
           end;
    repeat (cbn [JsIndexed.filterFrom JsIndexed.indexOfFrom andb];
            first
              [ rewrite Z.eqb_refl
              | match goal with
                | |- context [?a =? ?b] =>
                    rewrite (proj2 (Z.eqb_neq a b)) by lia
                | |- context [?a >? ?b] =>
                    rewrite (proj2 (Z.gtb_lt a b)) by lia
                | |- context [?a >? ?b] =>
                    rewrite (Z.gtb_ltb a b), (proj2 (Z.ltb_ge b a)) by lia
                end ]);
    reflexivity.
Qed.

(** The quick amount buttons of the payment form offer only amounts that
    the form accepts: each is positive and at most the remaining balance,
    no amount is offered twice, the full remaining balance is among them
    whenever something remains, and there is no button when nothing
    remains.  Submitting any of them records a payment. *)
Theorem quickAmounts_are_payable (record : LendingRecord) :
  (forall a, In a (quickAmounts record) -> 0 < a <= remaining record) /\
  NoDup (quickAmounts record) /\
  (0 < remaining record -> In (remaining record) (quickAmounts record)) /\
  (remaining record <= 0 -> quickAmounts record = []) /\
  (forall clk st paymentNotes a,
     In a (quickAmounts record) ->
     failed (ApplyPaymentTo clk record a paymentNotes st) = false).
Proof.
  pose proof (quickAmounts_cases record) as E. cbn zeta in E.
  assert (Hrange : forall a, In a (quickAmounts record) ->
                             0 < a <= remaining record).
  { rewrite E. intros a.
    destruct (Z.leb_spec (remaining record) 0); [intros []|].
    destruct (Z.leb_spec (remaining record) 50);
      [|destruct (Z.leb_spec (remaining record) 100);
        [|destruct (Z.leb_spec (remaining record) 500)]];
      cbn; intros Hin; repeat (destruct Hin as [<-|Hin]; [lia|]);
      destruct Hin. }
  split; [exact Hrange|]. split; [|split; [|split]].
  - rewrite E.
    destruct (Z.leb_spec (remaining record) 0); [constructor|].
    destruct (Z.leb_spec (remaining record) 50);
      [|destruct (Z.leb_spec (remaining record) 100);
        [|destruct (Z.leb_spec (remaining record) 500)]];
      repeat (constructor; [cbn; lia|]); constructor.
  - intros Hpos. rewrite E.
    destruct (Z.leb_spec (remaining record) 0); [lia|].
    destruct (Z.leb_spec (remaining record) 50);
      [|destruct (Z.leb_spec (remaining record) 100);
        [|destruct (Z.leb_spec (remaining record) 500)]];
      cbn; tauto.
  - intros Hle. rewrite E.
    destruct (Z.leb_spec (remaining record) 0); [reflexivity|lia].
  - intros clk st paymentNotes a Ha. apply Hrange in Ha.
    destruct (ApplyPaymentTo_cases clk record a paymentNotes st)
      as [(H & _)|[(_ & H & _)|(_ & H & _)]]; [lia|lia|exact H].
Qed.

Example quickAmounts_of_300 : quickAmounts rahulPartly = [50; 100; 300].
Proof. reflexivity. Qed.

(* ================================================================== *)
(** ** Search *)

Section Text.
Import JsString JsText.
Local Open Scope string_scope.

Lemma startsWith_iff s p :
  startsWith s p = true <-> exists post, s = p ++ post.
Proof.
  revert s. induction p as [|a p IH]; intros s; cbn.
  - split; [intros _; now exists s|reflexivity].
  - destruct s as [|b s].
    + split; [discriminate|]. intros [post H]. discriminate H.
    + rewrite andb_true_iff, IH. split.
      * intros [E [post ->]]. apply Ascii.eqb_eq in E. subst. now exists post.
      * intros [post H]. injection H as -> ->.
        split; [apply Ascii.eqb_refl|now exists post].
Qed.

Lemma includes_iff s needle :
  includes s needle = true <-> exists pre post, s = pre ++ needle ++ post.
Proof.
  induction s as [|c s IH].
  - cbn [includes]. rewrite startsWith_iff. split.
    + intros [post H]. now exists "", post.
    + intros (pre & post & H). destruct pre; [now exists post|discriminate].
  - cbn [includes]. rewrite orb_true_iff, startsWith_iff, IH. split.
    + intros [[post H]|(pre & post & H)].
      * now exists "", post.
      * exists (String c pre), post. cbn. now rewrite H.
    + intros (pre & post & H). destruct pre as [|d pre].
      * left. now exists post.
      * right. cbn in H. injection H as _ H. now exists pre, post.
Qed.

Lemma toLowerCase_app a b :
  toLowerCase (a ++ b) = toLowerCase a ++ toLowerCase b.
Proof. induction a as [|c a IH]; cbn; [reflexivity|now rewrite IH]. Qed.

End Text.

(** The search keeps exactly the records whose borrower name or reason,
    letter case apart, contains the search term; in particular the empty
    term keeps every record, and typing any part of a name or reason, in
    any letter case, finds the record. *)
Theorem search_finds_substrings (searchTerm : string) (rs : list LendingRecord) :
  (forall r,
     In r (filteredRecords searchTerm rs) <->
     In r rs /\
     exists pre post,
       JsString.toLowerCase (borrowerName r)
         = (pre ++ JsString.toLowerCase searchTerm ++ post)%string \/
       JsString.toLowerCase (reason r)
         = (pre ++ JsString.toLowerCase searchTerm ++ post)%string) /\
  filteredRecords EmptyString rs = rs /\
  filteredRecords (JsString.toLowerCase searchTerm) rs
    = filteredRecords searchTerm rs /\
  (forall r pre post,
     In r rs ->
     borrowerName r = (pre ++ searchTerm ++ post)%string ->
     In r (filteredRecords (JsString.toLowerCase searchTerm) rs)).
Proof.
  assert (Hiff : forall q r,
            In r (filteredRecords q rs) <->
            In r rs /\
            exists pre post,
              JsString.toLowerCase (borrowerName r)
                = (pre ++ JsString.toLowerCase q ++ post)%string \/
              JsString.toLowerCase (reason r)
                = (pre ++ JsString.toLowerCase q ++ post)%string).
  { intros q r. unfold filteredRecords.
    rewrite filter_In, orb_true_iff, !includes_iff. split.
    - intros [Hr [(pre & post & H)|(pre & post & H)]]; split; trivial;
        exists pre, post; tauto.
    - intros [Hr (pre & post & [H|H])]; split; trivial;
        [left|right]; now exists pre, post. }
  split; [apply Hiff|]. split; [|split].
  - apply filter_all. intros r _. apply orb_true_iff. left.
    apply includes_iff. exists EmptyString. eexists. reflexivity.
  - unfold filteredRecords. now rewrite toLowerCase_idem.
  - intros r pre post Hr E. apply Hiff. split; [exact Hr|].
    exists (JsString.toLowerCase pre), (JsString.toLowerCase post). left.
    now rewrite E, !toLowerCase_app, toLowerCase_idem.
Qed.

Example search_rahul :
  map id (filteredRecords "AHU" [rahulPartly; amit]) = ["1700000001000"%string]
  /\ map id (filteredRecords "x" [rahulPartly; amit]) = ["1700000000500"%string].
Proof. split; reflexivity. Qed.

(* ================================================================== *)
(** ** The contact dialog *)

(** The contact dialog splits the records it is given into those pending
    and those paid, losing and repeating none, and shows each part latest
    loan first, loans of the same date in the order of the store, in the
    pending part and in the paid part alike.  The
    three figures at its head are the sums over the same records: total
    borrowed is total paid plus the principals of the pending ones. *)
Theorem ContactDetailView_lists (rs : list LendingRecord) :
  let pendingShown := ContactDetailView.shownPending rs in
  let paidShown := ContactDetailView.shownPaid rs in
  Permutation (pendingShown ++ paidShown) rs /\
  Forall (fun r => status r = pending) pendingShown /\
  Forall (fun r => status r = paid) paidShown /\
  descendingBy lentDate pendingShown /\
  descendingBy lentDate paidShown /\
  (forall d, filter (fun r => lentDate r =? d) pendingShown
             = filter (fun r => lentDate r =? d)
                      (ContactDetailView.pendingRecords rs)) /\
  (forall d, filter (fun r => lentDate r =? d) paidShown
             = filter (fun r => lentDate r =? d)
                      (ContactDetailView.paidRecords rs)) /\
  ContactDetailView.totalBorrowed rs =
    ContactDetailView.totalPaid rs
    + sumZ (map amount (ContactDetailView.pendingRecords rs)).
Proof.
  intros pendingShown paidShown.
  assert (Hp : Permutation pendingShown (ContactDetailView.pendingRecords rs))
    by apply sortDesc_Permutation.
  assert (Hq : Permutation paidShown (ContactDetailView.paidRecords rs))
    by apply sortDesc_Permutation.
  split; [|split; [|split; [|split; [|split; [|split; [|split]]]]]].
  - rewrite Hp, Hq.
    unfold ContactDetailView.pendingRecords, ContactDetailView.paidRecords.
    clear. induction rs as [|r rs IH]; cbn; [constructor|].
    rewrite isPending_isPaid. destruct (isPending r); cbn.
    + now constructor.
    + rewrite <- Permutation_middle. now constructor.
  - rewrite Forall_forall. intros r Hr.
    apply (Permutation_in _ Hp) in Hr. apply filter_In in Hr.
    destruct Hr as [_ Hr]. unfold isPending in Hr.
    now destruct (status r).
  - rewrite Forall_forall. intros r Hr.
    apply (Permutation_in _ Hq) in Hr. apply filter_In in Hr.
    destruct Hr as [_ Hr]. unfold isPaid in Hr.
    now destruct (status r).
  - apply sortDesc_sorted.
  - apply sortDesc_sorted.
  - intros d. apply (sortDesc_stable lentDate).
  - intros d. apply (sortDesc_stable lentDate).
  - unfold ContactDetailView.totalBorrowed, ContactDetailView.totalPaid,
      ContactDetailView.pendingRecords.
    rewrite !reduce_sum, !Z.add_0_l. unfold sumZ.
    clear. induction rs as [|r rs IH]; cbn; [reflexivity|].
    rewrite isPending_isPaid. destruct (isPending r); cbn; lia.
Qed.

(** "Recent Payments" shows at most two entries of the history of the
    record, all of them from that history, and none that was paid
    earlier than an entry it leaves out.  Sorting the history, as the
    dialog and the payment form do in place, keeps its entries and hence
    the sum of their amounts. *)
Theorem recentPayments_are_latest (record : LendingRecord) :
  let shown := ContactDetailView.recentPayments record in
  exists rest,
    Permutation (shown ++ rest) (paymentHistory record) /\
    List.length shown = Nat.min 2 (List.length (paymentHistory record)) /\
    (forall a b, In a shown -> In b rest ->
                 PaymentEntry.date b <= PaymentEntry.date a) /\
    descendingBy PaymentEntry.date shown /\
    sumZ (map PaymentEntry.amount (ContactDetailView.sortedHistory record))
      = historyTotal record.
Proof.
  intros shown. unfold shown, ContactDetailView.recentPayments.
  set (sorted := ContactDetailView.sortedHistory record).
  assert (Hp : Permutation sorted (paymentHistory record))
    by apply sortDesc_Permutation.
  assert (Hs : descendingBy PaymentEntry.date sorted)
    by apply sortDesc_sorted.
  exists (skipn 2 sorted).
  rewrite <- (firstn_skipn 2 sorted) in Hs.
  split; [|split; [|split; [|split]]].
  - now rewrite firstn_skipn.
  - rewrite length_firstn. now rewrite (Permutation_length Hp).
  - now apply descendingBy_app.
  - unfold descendingBy in *.
    destruct sorted as [|a [|b l]]; cbn in *; trivial.
    inversion Hs as [|? ? Hs1 Ha]; subst.
    inversion Hs1 as [|? ? Hs2 Hb]; subst.
    inversion Ha; subst.
    repeat constructor; trivial.
  - unfold historyTotal. apply sumZ_Permutation. now apply Permutation_map.
Qed.

(* ================================================================== *)
(** ** Normal forms of borrower names *)


(** [normalizeName] yields a normal form: normalizing a second time
    changes nothing. *)
Theorem normalizeName_idempotent (s : string) :
  normalizeName (normalizeName s) = normalizeName s.
Proof.
  unfold normalizeName.
  rewrite trim_collapseSpaces, trim_lower, trim_idem.
  unfold JsString.collapseSpaces.
  rewrite <- replaceRuns_lower, toLowerCase_idem.
  apply replaceRuns_idem.
Qed.

(** Names that differ only in letter case, in white space at the ends or
    in the length of a run of white space inside have the same normal
    form, and so fall into the same class of borrowers: a letter may be
    capital in one name and small in the other, white space may be put
    before and after a name, and a run of white space may be replaced by
    another, each run being white space throughout and not empty. *)
Theorem normalizeName_ignores_case_and_spacing :
  (forall s t : string,
     sameUpToCase s t -> normalizeName s = normalizeName t) /\
  (forall a run1 run2 b : string,
     JsString.allSpace run1 -> run1 <> ""%string ->
     JsString.allSpace run2 -> run2 <> ""%string ->
     normalizeName (a ++ run1 ++ b)%string
     = normalizeName (a ++ run2 ++ b)%string) /\
  (forall pre s post : string,
     JsString.allSpace pre -> JsString.allSpace post ->
     normalizeName (pre ++ s ++ post)%string = normalizeName s).
Proof.
  split; [|split].
  - intros s t H. unfold normalizeName.
    rewrite <- !trim_lower. now rewrite (sameUpToCase_toLowerCase s t H).
  - intros a run1 run2 b H1 N1 H2 N2.
    rewrite <- (normalizeName_collapseSpaces (a ++ run1 ++ b)).
    rewrite <- (normalizeName_collapseSpaces (a ++ run2 ++ b)).
    unfold JsString.collapseSpaces.
    now rewrite (replaceRuns_run_length false a run1 run2 b H1 N1 H2 N2).
  - intros pre s post Hpre Hpost. unfold normalizeName.
    now rewrite trim_app_space.
Qed.

Lemma normalizeName_ignores_case_and_spacing_witness :
  normalizeName "RAHUL Sharma" = normalizeName "Rahul sharma" /\
  normalizeName ("Rahul" ++ "   " ++ "Sharma")%string
  = normalizeName ("Rahul" ++ " " ++ "Sharma")%string /\
  normalizeName ("  " ++ "Rahul Sharma" ++ " ")%string
  = normalizeName "Rahul Sharma".
Proof.
  destruct normalizeName_ignores_case_and_spacing as (Hcase & Hrun & Hends).
  split; [|split].
  - apply Hcase. unfold sameUpToCase, caseVariant, letterPairs. cbn.
    repeat (constructor; [intuition|]). constructor.
  - apply Hrun; try discriminate; repeat constructor.
  - apply Hends; repeat constructor.
Defined.

(* ================================================================== *)
(** ** The contact cards against the totals and the contact dialog *)

Section SummarySums.
Variable g : BorrowerSummary -> Z.
Variable delta : LendingRecord -> Z.
Hypothesis g_add : forall e r, g (addToSummary e r) = g e + delta r.
Hypothesis g_new : forall nm d, g (mkSummary nm 0 0 0 d) = 0.

Lemma set_sum (m : JsMap.t BorrowerSummary) k v :
  sumZ (map g (JsMap.values (JsMap.set m k v))) =
  sumZ (map g (JsMap.values m)) + g v
  - match JsMap.get m k with Some e => g e | None => 0 end.
Proof.
  unfold JsMap.values, sumZ.
  induction m as [|[k' v'] m IH]; cbn; [lia|].
  destruct (String.eqb k' k); cbn; [lia|]. rewrite IH. lia.
Qed.

Lemma summaryStep_sum m r :
  sumZ (map g (JsMap.values (summaryStep m r))) =
  sumZ (map g (JsMap.values m)) + delta r.
Proof.
  unfold summaryStep. rewrite set_sum, g_add.
  destruct (JsMap.get m (normalizeName (borrowerName r))); cbn [orElse];
    [lia|]. rewrite g_new. lia.
Qed.

Lemma summaryMap_sum rs :
  sumZ (map g (JsMap.values (summaryMap rs))) = sumZ (map delta rs).
Proof.
  unfold summaryMap, JsArray.reduce.
  assert (G : forall m,
             sumZ (map g (JsMap.values (fold_left summaryStep rs m))) =
             sumZ (map g (JsMap.values m)) + sumZ (map delta rs)).
  { induction rs as [|r rs IH]; intros m; cbn [fold_left map].
    - unfold sumZ. cbn. lia.
    - rewrite IH, summaryStep_sum. unfold sumZ. cbn. lia. }
  rewrite G. reflexivity.
Qed.

Lemma borrowerSummaries_sum rs :
  sumZ (map g (borrowerSummaries rs)) = sumZ (map delta rs).
Proof.
  rewrite <- summaryMap_sum. apply sumZ_Permutation, Permutation_map.
  unfold borrowerSummaries. apply (sort_Permutation _).
Qed.

End SummarySums.

(** The contact cards add up to the global figures: the amounts borrowed
    on the cards sum to the total lent, the amounts owed to the total
    pending, and the record counts to the number of records. *)
Theorem summaries_add_up_to_totals (rs : list LendingRecord) :
  sumZ (map totalBorrowed (borrowerSummaries rs)) = totalLent rs /\
  sumZ (map totalOwed (borrowerSummaries rs)) = totalPending rs /\
  sumZ (map recordCount (borrowerSummaries rs)) = Z.of_nat (List.length rs).
Proof.
  destruct (totals_as_sums rs) as (-> & -> & _).
  split; [|split].
  - apply borrowerSummaries_sum; reflexivity.
  - rewrite (borrowerSummaries_sum totalOwed
               (fun r => if isPending r then amount r - paidAmount r else 0)).
    + unfold sumZ, remaining. induction rs as [|r rs IH]; cbn; [reflexivity|].
      destruct (isPending r); cbn; lia.
    + intros e r. cbn. destruct (isPending r); lia.
    + reflexivity.
  - rewrite (borrowerSummaries_sum recordCount (fun _ => 1)).
    + unfold sumZ. induction rs as [|r rs IH]; cbn [map fold_right List.length];
        [reflexivity|]. rewrite IH. lia.
    + reflexivity.
    + reflexivity.
Qed.

Lemma summaries_of_leaders rs :
  Permutation (borrowerSummaries rs) (map (classSummary rs) (leaders rs)).
Proof.
  unfold borrowerSummaries. rewrite (sort_Permutation _).
  rewrite summaryMap_by_class. unfold JsMap.values. rewrite map_map.
  reflexivity.
Qed.

(** No two contact cards bear the same name (the page uses the name as
    the key of the card). *)
Theorem summary_names_distinct (rs : list LendingRecord) :
  NoDup (map name (borrowerSummaries rs)).
Proof.
  apply (Permutation_NoDup
           (Permutation_sym (Permutation_map name (summaries_of_leaders rs)))).
  rewrite map_map. cbn [classSummary name].
  apply (NoDup_map_inv
           (fun n => JsString.collapseSpaces (JsString.toLowerCase n))).
  rewrite map_map. exact (leadersFrom_NoDup [] rs).
Qed.

(** Opening a contact card that carries a name shows the records the
    card stands for: the dialog is given exactly the records of the class
    of the card, at least one, and the outstanding and borrowed totals of
    the dialog and the number of its records are the figures on the card.
    A card whose name is empty, which is the card of the records whose
    names are blank, opens no dialog. *)
Theorem contact_dialog_matches_card (rs : list LendingRecord) (s : BorrowerSummary) :
  In s (borrowerSummaries rs) ->
  (name s = ""%string -> contactRecords (selectBorrower s) rs = None) /\
  (name s <> ""%string ->
   exists shown,
     contactRecords (selectBorrower s) rs = Some shown /\
     shown <> [] /\
     (forall r, In r shown <->
                In r rs /\
                normalizeName (borrowerName r) = normalizeName (name s)) /\
     ContactDetailView.totalOwed shown = totalOwed s /\
     ContactDetailView.totalBorrowed shown = totalBorrowed s /\
     Z.of_nat (List.length shown) = recordCount s).
Proof.
  intros Hs. split.
  - intros E. unfold selectBorrower, contactRecords. now rewrite E.
  - intros Hname.
    set (shown := filter (fun r => String.eqb (normalizeName (borrowerName r))
                                              (normalizeName (name s))) rs).
    exists shown. split.
    { unfold selectBorrower, contactRecords.
      destruct (name s) eqn:En; [now destruct Hname|reflexivity]. }
    apply (Permutation_in _ (summaries_of_leaders rs)) in Hs.
    apply in_map_iff in Hs. destruct Hs as (l & <- & Hl).
    assert (E : shown = members rs l).
    { unfold shown, members. cbn [classSummary name].
      rewrite normalizeName_trim. apply filter_ext. intros r.
      unfold sameClass, classKey. apply String.eqb_sym. }
    assert (Hin : In l (members rs l)).
    { unfold members. apply filter_In. split.
      - now apply leadersFrom_In in Hl.
      - unfold sameClass. apply String.eqb_refl. }
    split; [|split; [|split; [|split]]].
    + rewrite E. intros H. rewrite H in Hin. destruct Hin.
    + intros r. unfold shown. rewrite filter_In.
      now rewrite String.eqb_eq.
    + rewrite E. unfold ContactDetailView.totalOwed.
      rewrite reduce_sum. cbn. reflexivity.
    + rewrite E. unfold ContactDetailView.totalBorrowed.
      rewrite reduce_sum. cbn. reflexivity.
    + rewrite E. reflexivity.
Qed.

Lemma contact_dialog_matches_card_witness :
  exists shown,
    contactRecords (Some "amit"%string) [amitAgain; rahulPartly; amit]
      = Some shown /\
    ContactDetailView.totalOwed shown = 150.
Proof.
  assert (Hin : In (mkSummary "amit" 150 150 2 day2)
                   (borrowerSummaries [amitAgain; rahulPartly; amit])).
  { right. left. reflexivity. }
  assert (Hname : name (mkSummary "amit" 150 150 2 day2) <> ""%string)
    by discriminate.
  destruct (proj2 (contact_dialog_matches_card _ _ Hin) Hname)
    as (shown & E & _ & _ & Ho & _).
  exists shown. split; [exact E|exact Ho].
Defined.

(** The card of a record saved with a blank name carries the empty name
    and opens nothing. *)
Example blank_card_opens_no_dialog :
  let rs := records (fst (Add clock1 formBlankName initialApp)) in
  map name (borrowerSummaries rs) = [""%string] /\
  map (fun s => contactRecords (selectBorrower s) rs) (borrowerSummaries rs)
    = [None].
Proof. split; reflexivity. Qed.

(* ================================================================== *)
(** ** The payment dialog after a submit *)

(** A payment that the form rejects leaves the dialog open on the record
    it was opened on and leaves every record as it was, but for the order
    of the entries of a payment history: the render of the dialog has
    arranged those of its record latest first, in the record list as
    well.  A payment that is accepted closes the dialog and clears the
    selection.  Neither touches the add dialog. *)
Theorem payment_dialog_state clk record amt paymentNotes st :
  let out := ApplyPaymentTo clk record amt paymentNotes st in
  (failed out = true ->
   isPartialPaymentOpen (fst out) = true /\
   (exists sel,
      selectedRecordForPayment (fst out) = Some sel /\
      sameButHistoryOrder record sel /\
      descendingBy PaymentEntry.date (paymentHistory sel)) /\
   Forall2 sameButHistoryOrder (records st) (records (fst out))) /\
  (failed out = false ->
   isPartialPaymentOpen (fst out) = false /\
   selectedRecordForPayment (fst out) = None) /\
  isAddRecordOpen (fst out) = isAddRecordOpen st.
Proof.
  intros out.
  assert (Hrej : amt <= 0 \/ remaining record < amt ->
                 failed out = true /\ fst out = dialogOn record st).
  { intros Hbad. split; [|now apply ApplyPaymentTo_rejected].
    destruct (ApplyPaymentTo_cases clk record amt paymentNotes st)
      as [(_ & _ & Ht)|[(_ & _ & _ & Ht)|((H1 & H2) & _)]];
      [| |lia]; fold out in Ht; unfold failed; now rewrite Ht. }
  destruct (Z.le_gt_cases amt 0) as [Hle|Hpos];
    [|destruct (Z.lt_ge_cases (remaining record) amt) as [Hhigh|Hok]].
  - destruct (Hrej (or_introl Hle)) as [Hf E]. rewrite Hf, E.
    split; [|split; [discriminate|reflexivity]]. intros _.
    split; [reflexivity|]. split.
    + exists (withSortedHistory record).
      split; [reflexivity|]. split; [apply sameButHistoryOrder_sorted|].
      apply sortDesc_sorted.
    + apply sortHistoryOf_Forall2;
        [apply sameButHistoryOrder_refl|apply sameButHistoryOrder_sorted].
  - destruct (Hrej (or_intror Hhigh)) as [Hf E]. rewrite Hf, E.
    split; [|split; [discriminate|reflexivity]]. intros _.
    split; [reflexivity|]. split.
    + exists (withSortedHistory record).
      split; [reflexivity|]. split; [apply sameButHistoryOrder_sorted|].
      apply sortDesc_sorted.
    + apply sortHistoryOf_Forall2;
        [apply sameButHistoryOrder_refl|apply sameButHistoryOrder_sorted].
  - assert (E := ApplyPaymentTo_accepted clk record amt paymentNotes st
                   (conj Hpos Hok)).
    fold out in E.
    set (n := if JsString.truthy paymentNotes then Some paymentNotes else None)
      in E.
    pose proof (failed_handlePartialPayment clk (dialogOn record st)
                  (id record) amt n) as Hf.
    rewrite <- E in Hf. rewrite Hf.
    assert (Hst : isPartialPaymentOpen (fst out) = false /\
                  selectedRecordForPayment (fst out) = None /\
                  isAddRecordOpen (fst out) = isAddRecordOpen st).
    { rewrite E. unfold handlePartialPayment.
      destruct (find _ (records (dialogOn record st))) as [r|]; cbn;
        [destruct (_ <=? 0)|]; repeat split. }
    destruct Hst as (H1 & H2 & H3).
    repeat split; trivial; discriminate.
Qed.

(** Rahul has paid twice; one rupee too many is submitted.  The payment
    is rejected, and the list holds his record with the two entries in
    the other order. *)
Example rejected_payment_reorders_history :
  let out := ApplyPaymentTo clock3 rahulTwice 201 "" storeC in
  failed out = true /\
  records (fst out) = [amit; withSortedHistory rahulTwice] /\
  paymentHistory (withSortedHistory rahulTwice)
  = rev (paymentHistory rahulTwice) /\
  withSortedHistory rahulTwice <> rahulTwice.
Proof.
  split; [reflexivity|]. split; [reflexivity|]. split; [reflexivity|].
  intros E. apply (f_equal paymentHistory) in E. cbn in E.
  discriminate.
Qed.

(* ================================================================== *)
(** ** Adding and marking, once more *)

(** An Add that the form accepts raises the total lent and the total
    pending by the amount entered and leaves the total returned as it
    was. *)
Theorem Add_moves_totals clk formData st a :
  Partial.amount formData = Some a ->
  failed (Add clk formData st) = false ->
  let rs' := records (fst (Add clk formData st)) in
  totalLent rs' = totalLent (records st) + a /\
  totalPending rs' = totalPending (records st) + a /\
  totalPaid rs' = totalPaid (records st).
Proof.
  intros Ha Hok rs'. unfold rs' in *. clear rs'.
  unfold Add, AddRecordForm_handleSubmit in *.
  destruct (_ || _) eqn:Eg; [discriminate Hok|].
  apply orb_false_elim in Eg. destruct Eg as [Eg _].
  apply orb_false_elim in Eg. destruct Eg as [_ Eg].
  rewrite Ha in Eg. cbn in Eg.
  destruct (records_handleAddRecord clk st formData)
    as (r & -> & _ & _ & _ & Hamt & Hs & Hp & _).
  rewrite Ha in Hamt. cbn in Hamt. rewrite Eg in Hamt.
  destruct (totals_as_sums (r :: records st)) as (-> & _ & _).
  destruct (totals_as_sums (records st)) as (-> & _ & _).
  destruct (totals_around [] r (records st)) as [E1 E2]. cbn [app] in E1, E2.
  rewrite E1, E2. unfold isPending, isPaid, remaining.
  rewrite Hs, Hp, Hamt. unfold sumZ, totalPending, totalPaid. cbn. lia.
Qed.

Lemma Add_moves_totals_witness :
  totalLent (records (fst (Add clock3 formRahul storeB)))
  = totalLent (records storeB) + 500.
Proof.
  refine (proj1 (Add_moves_totals clock3 formRahul storeB 500 _ _));
    reflexivity.
Defined.

(** Marking a record fully paid a second time changes nothing, and
    marking leaves the record list as it is when every record of that id
    is already paid. *)
Theorem MarkFullyPaid_idempotent st recordId :
  let once := fst (MarkFullyPaid recordId st) in
  records (fst (MarkFullyPaid recordId once)) = records once /\
  ((forall r, In r (records st) -> id r = recordId -> status r = paid) ->
   records once = records st).
Proof.
  intros once. unfold once, MarkFullyPaid. rewrite !records_markAsPaid.
  split.
  - rewrite map_map. apply map_ext. intros r.
    destruct (String.eqb (id r) recordId) eqn:E; cbn; now rewrite E.
  - intros H. rewrite <- (map_id (records st)) at 2.
    apply map_ext_in. intros r Hr.
    destruct (String.eqb_spec (id r) recordId) as [E|E]; [|reflexivity].
    specialize (H r Hr E). destruct r; cbn in *. now subst.
Qed.
